(** * NavSphere: the validation and build scripts, embedded and verified

    Sources embedded here:
    - [src/types/index.ts] (the lower-case environment enumeration and the
      entity interfaces and Zod schemas),
    - [scripts/build-data.ts] ([getEnvOrder], [expandNavigationItems],
      [groupByCategory]),
    - [scripts/validate.ts] ([validateCategories], [validateProjects],
      [validateProjectEnvs], [validateLinks], [main]).

    Numbers are integers ([Z]): every numeric field of the schemas is
    [z.number().int()], and the only arithmetic is the subtraction inside the
    two sort comparators. *)

From Stdlib Require Import List String Ascii ZArith Bool Lia Arith.
From Stdlib Require Import Permutation Sorting.Sorted.
From Stdlib Require Import Structures.OrdersEx.
From Stdlib Require Import Numbers.DecimalString.
Import ListNotations.

Set Warnings "-register-all".

Local Open Scope string_scope.
Local Open Scope Z_scope.

(** ** Entity types ([src/types/index.ts]) *)

(** [export type EnvType = 'test' | 'staging' | 'prod'].  In TypeScript the
    values of the enumeration are the strings themselves; [EnvType_str] gives
    the string a value stands for, which is what a template literal prints. *)
Inductive EnvType : Type := test | staging | prod.

Definition EnvType_str (e : EnvType) : string :=
  match e with
  | test => "test"
  | staging => "staging"
  | prod => "prod"
  end.

(** The values listed by [z.enum([...])], in declaration order. *)
Definition EnvType_values : list EnvType := [test; staging; prod].

(** The other copy of the type file declares
    [export type EnvType = 'TEST' | 'PRE' | 'PROD']. *)
Definition EnvType_upper_values : list string := ["TEST"; "PRE"; "PROD"].

Module Category.
Record t : Type := mk {
  id : string;
  name : string;
  description : option string;
  icon : option string;
  order : option Z
}.
End Category.

Module Project.
Record t : Type := mk {
  id : string;
  name : string;
  description : option string;
  categoryId : string;
  icon : option string;
  order : option Z
}.
End Project.

Module ProjectEnv.
Record t : Type := mk {
  projectId : string;
  env : EnvType;
  url : string;
  description : option string;
  enabled : bool
}.
End ProjectEnv.

Module Link.
Record t : Type := mk {
  id : string;
  name : string;
  url : string;
  description : option string;
  categoryId : option string;
  icon : option string;
  order : option Z;
  enabled : bool
}.
End Link.

Module NavigationItem.
Record t : Type := mk {
  id : string;
  projectId : string;
  projectName : string;
  projectDescription : option string;
  categoryId : string;
  env : EnvType;
  url : string;
  envDescription : option string;
  icon : option string;
  enabled : bool;
  order : Z
}.
End NavigationItem.

Module CategoryBlock.
Record t : Type := mk {
  category : Category.t;
  items : list NavigationItem.t
}.
End CategoryBlock.

(** ** JavaScript array operations used by the scripts *)

Section ArrayOps.
Context {A : Type}.

(** [Array.prototype.sort(compareFn)].  The sort is stable (ECMAScript 2019)
    and, for a consistent comparator, its result is the one stable sorted
    arrangement of the input, whatever algorithm the engine runs.  Stable
    insertion from the right computes that arrangement: [x] goes in front of
    the first [y] with [compareFn x y <= 0]. *)
Fixpoint sort_insert (compareFn : A -> A -> Z) (x : A) (l : list A) : list A :=
  match l with
  | [] => [x]
  | y :: r =>
      if compareFn x y <=? 0 then x :: y :: r
      else y :: sort_insert compareFn x r
  end.

Fixpoint Array_sort (compareFn : A -> A -> Z) (l : list A) : list A :=
  match l with
  | [] => []
  | x :: r => sort_insert compareFn x (Array_sort compareFn r)
  end.

(** [l.indexOf(x)] with the equality test [eqb] standing for [===]; [-1]
    when [x] does not occur. *)
Fixpoint indexOf_from (eqb : A -> A -> bool) (x : A) (l : list A) (i : Z) : Z :=
  match l with
  | [] => -1
  | y :: r => if eqb y x then i else indexOf_from eqb x r (i + 1)
  end.

Definition indexOf (eqb : A -> A -> bool) (l : list A) (x : A) : Z :=
  indexOf_from eqb x l 0.

(** [l.filter((x, index) => f x index)]. *)
Fixpoint filter_index_from (f : A -> Z -> bool) (l : list A) (i : Z) : list A :=
  match l with
  | [] => []
  | x :: r =>
      if f x i then x :: filter_index_from f r (i + 1)
      else filter_index_from f r (i + 1)
  end.

Definition filter_index (f : A -> Z -> bool) (l : list A) : list A :=
  filter_index_from f l 0.

(** [[...new Set(l)]]: the distinct values of [l] in order of first
    occurrence. *)
Fixpoint Set_add_all (eqb : A -> A -> bool) (seen : list A) (l : list A) : list A :=
  match l with
  | [] => seen
  | x :: r =>
      if existsb (eqb x) seen then Set_add_all eqb seen r
      else Set_add_all eqb (seen ++ [x]) r
  end.

Definition Set_spread (eqb : A -> A -> bool) (l : list A) : list A :=
  Set_add_all eqb [] l.

(** The order a comparator induces: [a] may stand before [b]. *)
Definition before (compareFn : A -> A -> Z) (a b : A) : Prop := compareFn a b <= 0.

End ArrayOps.

(** [l.join(sep)] on an array of strings. *)
Definition join (sep : string) (l : list string) : string := String.concat sep l.

(** ** [scripts/build-data.ts] *)

(** The literal [{ prod: 1, staging: 2, test: 3 }] of [getEnvOrder], and the
    lookup of a key in it ([None] for [undefined]). *)
Definition orderMap : list (string * Z) :=
  [("prod", 1); ("staging", 2); ("test", 3)].

Fixpoint orderMap_get (m : list (string * Z)) (key : string) : option Z :=
  match m with
  | [] => None
  | (k, v) :: r => if String.eqb k key then Some v else orderMap_get r key
  end.

(** [getEnvOrder]: [orderMap[env]].  The literal has the type
    [Record<EnvType, number>], one entry for each value of [EnvType]. *)
Definition getEnvOrder (env : EnvType) : Z :=
  match env with
  | prod => 1
  | staging => 2
  | test => 3
  end.

(** The object literal pushed for one project and one of its env records. *)
Definition navigationItem (project : Project.t) (env : ProjectEnv.t) : NavigationItem.t :=
  {| NavigationItem.id :=
       (Project.id project ++ "-" ++ EnvType_str (ProjectEnv.env env))%string;
     NavigationItem.projectId := Project.id project;
     NavigationItem.projectName := Project.name project;
     NavigationItem.projectDescription := Project.description project;
     NavigationItem.categoryId := Project.categoryId project;
     NavigationItem.env := ProjectEnv.env env;
     NavigationItem.url := ProjectEnv.url env;
     NavigationItem.envDescription := ProjectEnv.description env;
     NavigationItem.icon := Project.icon project;
     NavigationItem.enabled := ProjectEnv.enabled env;
     NavigationItem.order := getEnvOrder (ProjectEnv.env env) |}.

(** [(e) => e.projectId === project.id] *)
Definition envOf (project : Project.t) (e : ProjectEnv.t) : bool :=
  String.eqb (ProjectEnv.projectId e) (Project.id project).

Definition expandNavigationItems
    (projects : list Project.t) (projectEnvs : list ProjectEnv.t)
    : list NavigationItem.t :=
  flat_map (fun project =>
              let envs := filter (envOf project) projectEnvs in
              map (navigationItem project) envs)
           projects.

Section GroupByCategory.
(** [String.prototype.localeCompare]: the collation of the host's locale,
    negative, zero or positive. *)
Variable localeCompare : string -> string -> Z.

(** The comparator handed to [items.sort]. *)
Definition compareItems (a b : NavigationItem.t) : Z :=
  if negb (NavigationItem.order a =? NavigationItem.order b)
  then NavigationItem.order a - NavigationItem.order b
  else localeCompare (NavigationItem.projectName a) (NavigationItem.projectName b).

(** [category.order ?? 999]. *)
Definition orderOrDefault (c : Category.t) : Z :=
  match Category.order c with
  | Some o => o
  | None => 999
  end.

(** The comparator handed to the sort of the blocks. *)
Definition compareBlocks (a b : CategoryBlock.t) : Z :=
  orderOrDefault (CategoryBlock.category a) - orderOrDefault (CategoryBlock.category b).

(** The items kept for one category, before they are sorted. *)
Definition itemsOf (category : Category.t) (navigationItems : list NavigationItem.t)
    : list NavigationItem.t :=
  filter (fun item =>
            String.eqb (NavigationItem.categoryId item) (Category.id category)
            && NavigationItem.enabled item)
         navigationItems.

Definition blockOf (navigationItems : list NavigationItem.t) (category : Category.t)
    : CategoryBlock.t :=
  {| CategoryBlock.category := category;
     CategoryBlock.items := Array_sort compareItems (itemsOf category navigationItems) |}.

Definition groupByCategory
    (categories : list Category.t) (navigationItems : list NavigationItem.t)
    : list CategoryBlock.t :=
  Array_sort compareBlocks
    (filter (fun block => 0 <? Z.of_nat (List.length (CategoryBlock.items block)))
            (map (blockOf navigationItems) categories)).
End GroupByCategory.

(** ** Untyped data, as [yaml.load] returns it *)

(** A loaded document.  Numbers are the integers, printed in plain decimal (a
    YAML float, a timestamp or a binary node is outside this model).  Two
    composite nodes are never the same JavaScript object: YAML aliases are not
    modelled. *)
Inductive JsVal : Type :=
| JUndefined
| JNull
| JBool (b : bool)
| JNum (n : Z)
| JStr (s : string)
| JArr (elems : list JsVal)
| JObj (fields : list (string * JsVal)).

(** The exceptions the validate script can meet. *)
Inductive TypeErrorKind : Type :=
| NotAFunction (prop : string)             (* [x.map] where [x] is no array *)
| NullishRead (v : JsVal) (prop : string). (* [x.id] where [x] is null or undefined *)

Inductive JsError : Type :=
| LoadFailure (text : string)   (* thrown by [fs.readFileSync] or [yaml.load]; [text] is [String(error)] *)
| TypeError (kind : TypeErrorKind).

Inductive Completion (A : Type) : Type :=
| Normal (a : A)
| Throw (e : JsError).
Arguments Normal {A} a.
Arguments Throw {A} e.

(** What Zod reports about one field. *)
Inductive ZodIssueKind : Type :=
| invalid_type (expected : string) (received : JsVal)
| too_small_string (minimum : nat)
| too_small_number (minimum : Z)
| invalid_string_url
| invalid_enum_value (options : list string) (received : string).

Record ZodIssue : Type := mkIssue {
  path : list string;
  message : string
}.

(** What the scripts take from their platform: the URL parser behind
    [z.string().url()], the wording of Zod's issues, and the wording of the
    engine's [TypeError]s. *)
Record Host : Type := mkHost {
  isUrl : string -> bool;
  zodMessage : ZodIssueKind -> string;
  typeErrorText : TypeErrorKind -> string
}.

(** [String(n)] for an array index. *)
Definition indexToString (n : nat) : string :=
  NilEmpty.string_of_uint (Nat.to_uint n).

(** [String(n)] for an integer. *)
Definition numberToString (n : Z) : string :=
  NilEmpty.string_of_int (Z.to_int n).

(** [String(v)]; an array prints its elements joined by a comma, [null] and
    [undefined] printing as nothing inside it. *)
Fixpoint toString (v : JsVal) : string :=
  match v with
  | JUndefined => "undefined"
  | JNull => "null"
  | JBool true => "true"
  | JBool false => "false"
  | JNum n => numberToString n
  | JStr s => s
  | JArr elems =>
      let element x :=
        match x with
        | JUndefined | JNull => ""
        | _ => toString x
        end in
      (fix go (l : list JsVal) : string :=
         match l with
         | [] => ""
         | [x] => element x
         | x :: r => element x ++ "," ++ go r
         end) elems
  | JObj _ => "[object Object]"
  end%string.

(** [l.join(sep)] on an array of loaded values. *)
Definition joinValues (sep : string) (l : list JsVal) : string :=
  join sep (map (fun x => match x with
                          | JUndefined | JNull => ""
                          | _ => toString x
                          end) l).

(** SameValueZero, the equality of [Array.prototype.includes] and of [Set]. *)
Definition sameValueZero (a b : JsVal) : bool :=
  match a, b with
  | JUndefined, JUndefined => true
  | JNull, JNull => true
  | JBool x, JBool y => Bool.eqb x y
  | JNum x, JNum y => x =? y
  | JStr x, JStr y => String.eqb x y
  | _, _ => false
  end.

Definition includes (l : list JsVal) (x : JsVal) : bool :=
  existsb (sameValueZero x) l.

(** [obj[key]] on the fields of an object. *)
Fixpoint getField (fields : list (string * JsVal)) (key : string) : JsVal :=
  match fields with
  | [] => JUndefined
  | (k, v) :: r => if String.eqb k key then v else getField r key
  end.

(** [v.key] for one of the field names the script reads ([id],
    [categoryId]): a [TypeError] on [null] and [undefined], the field of an
    object, [undefined] on anything else. *)
Definition getProp (key : string) (v : JsVal) : Completion JsVal :=
  match v with
  | JUndefined | JNull => Throw (TypeError (NullishRead v key))
  | JObj fields => Normal (getField fields key)
  | _ => Normal JUndefined
  end.

(** [v.map((x) => x.key)]: a [TypeError] when [v] is no array (it has no
    callable [map]), or at the first element that is [null] or [undefined]. *)
Fixpoint mapProp_elems (key : string) (l : list JsVal) : Completion (list JsVal) :=
  match l with
  | [] => Normal []
  | x :: r =>
      match getProp key x with
      | Throw e => Throw e
      | Normal y =>
          match mapProp_elems key r with
          | Throw e => Throw e
          | Normal ys => Normal (y :: ys)
          end
      end
  end.

Definition mapProp (key : string) (v : JsVal) : Completion (list JsVal) :=
  match v with
  | JArr elems => mapProp_elems key elems
  | JUndefined | JNull => Throw (TypeError (NullishRead v "map"))
  | _ => Throw (TypeError (NotAFunction "map"))
  end.

(** ** Zod schemas ([src/types/index.ts]) *)

(** The result of [schema.safeParse(v)]: the typed data, or the issues. *)
Inductive SafeParse (A : Type) : Type :=
| Success (data : A)
| Failure (errors : list ZodIssue).
Arguments Success {A} data.
Arguments Failure {A} errors.

(** Zod checks every key of an object and every element of an array, and
    collects the issues of all of them. *)
Definition ap {A B : Type} (f : SafeParse (A -> B)) (x : SafeParse A) : SafeParse B :=
  match f, x with
  | Success g, Success a => Success (g a)
  | Success _, Failure e => Failure e
  | Failure e, Success _ => Failure e
  | Failure e1, Failure e2 => Failure (e1 ++ e2)
  end.

Notation "f <*> x" := (ap f x) (at level 51, left associativity).

Section Schemas.
Variable host : Host.

Definition Schema (A : Type) : Type := list string -> JsVal -> SafeParse A.

Definition issue (p : list string) (k : ZodIssueKind) : ZodIssue :=
  {| path := p; message := zodMessage host k |}.

(** [z.string().min(1)] *)
Definition z_string_min1 : Schema string := fun p v =>
  match v with
  | JStr s => if (1 <=? String.length s)%nat then Success s
              else Failure [issue p (too_small_string 1)]
  | _ => Failure [issue p (invalid_type "string" v)]
  end.

(** [z.string()] *)
Definition z_string : Schema string := fun p v =>
  match v with
  | JStr s => Success s
  | _ => Failure [issue p (invalid_type "string" v)]
  end.

(** [z.string().url()] *)
Definition z_string_url : Schema string := fun p v =>
  match v with
  | JStr s => if isUrl host s then Success s
              else Failure [issue p invalid_string_url]
  | _ => Failure [issue p (invalid_type "string" v)]
  end.

(** [z.number().int().min(0)] *)
Definition z_number_int_min0 : Schema Z := fun p v =>
  match v with
  | JNum n => if 0 <=? n then Success n
              else Failure [issue p (too_small_number 0)]
  | _ => Failure [issue p (invalid_type "number" v)]
  end.

(** [z.boolean()] *)
Definition z_boolean : Schema bool := fun p v =>
  match v with
  | JBool b => Success b
  | _ => Failure [issue p (invalid_type "boolean" v)]
  end.

(** [schema.optional()] *)
Definition z_optional {A : Type} (s : Schema A) : Schema (option A) := fun p v =>
  match v with
  | JUndefined => Success None
  | _ => match s p v with
         | Success a => Success (Some a)
         | Failure e => Failure e
         end
  end.

(** [schema.default(d)] *)
Definition z_default {A : Type} (s : Schema A) (d : A) : Schema A := fun p v =>
  match v with
  | JUndefined => Success d
  | _ => s p v
  end.

(** [EnvTypeSchema = z.enum(['test', 'staging', 'prod'])] *)
Definition EnvTypeSchema : Schema EnvType := fun p v =>
  match v with
  | JStr s =>
      match find (fun e => String.eqb (EnvType_str e) s) EnvType_values with
      | Some e => Success e
      | None => Failure [issue p (invalid_enum_value (map EnvType_str EnvType_values) s)]
      end
  | _ => Failure [issue p (invalid_type "'test' | 'staging' | 'prod'" v)]
  end.

(** [z.object({...})]: the value must be an object; [field] reads one key
    of it and checks it against the key's schema. *)
Definition z_object {A : Type} (shape : list string -> list (string * JsVal) -> SafeParse A)
    : Schema A := fun p v =>
  match v with
  | JObj fields => shape p fields
  | _ => Failure [issue p (invalid_type "object" v)]
  end.

Definition field {A : Type} (s : Schema A) (key : string)
    (p : list string) (fields : list (string * JsVal)) : SafeParse A :=
  s (p ++ [key])%list (getField fields key).

(** [schema.array()] *)
Fixpoint z_array_from {A : Type} (s : Schema A) (p : list string)
    (l : list JsVal) (i : nat) : SafeParse (list A) :=
  match l with
  | [] => Success []
  | x :: r => Success cons <*> s (p ++ [indexToString i])%list x <*> z_array_from s p r (S i)
  end.

Definition z_array {A : Type} (s : Schema A) : Schema (list A) := fun p v =>
  match v with
  | JArr elems => z_array_from s p elems 0
  | _ => Failure [issue p (invalid_type "array" v)]
  end.

Definition CategorySchema : Schema Category.t :=
  z_object (fun p o =>
    Success Category.mk
      <*> field z_string_min1 "id" p o
      <*> field z_string_min1 "name" p o
      <*> field (z_optional z_string) "description" p o
      <*> field (z_optional z_string) "icon" p o
      <*> field (z_optional z_number_int_min0) "order" p o).

Definition ProjectSchema : Schema Project.t :=
  z_object (fun p o =>
    Success Project.mk
      <*> field z_string_min1 "id" p o
      <*> field z_string_min1 "name" p o
      <*> field (z_optional z_string) "description" p o
      <*> field z_string_min1 "categoryId" p o
      <*> field (z_optional z_string) "icon" p o
      <*> field (z_optional z_number_int_min0) "order" p o).

Definition ProjectEnvSchema : Schema ProjectEnv.t :=
  z_object (fun p o =>
    Success ProjectEnv.mk
      <*> field z_string_min1 "projectId" p o
      <*> field EnvTypeSchema "env" p o
      <*> field z_string_url "url" p o
      <*> field (z_optional z_string) "description" p o
      <*> field (z_default z_boolean true) "enabled" p o).

Definition LinkSchema : Schema Link.t :=
  z_object (fun p o =>
    Success Link.mk
      <*> field z_string_min1 "id" p o
      <*> field z_string_min1 "name" p o
      <*> field z_string_url "url" p o
      <*> field (z_optional z_string) "description" p o
      <*> field (z_optional z_string) "categoryId" p o
      <*> field (z_optional z_string) "icon" p o
      <*> field (z_optional z_number_int_min0) "order" p o
      <*> field (z_default z_boolean true) "enabled" p o).

(** [z.number().int()] *)
Definition z_number_int : Schema Z := fun p v =>
  match v with
  | JNum n => Success n
  | _ => Failure [issue p (invalid_type "number" v)]
  end.

Definition NavigationItemSchema : Schema NavigationItem.t :=
  z_object (fun p o =>
    Success NavigationItem.mk
      <*> field z_string_min1 "id" p o
      <*> field z_string_min1 "projectId" p o
      <*> field z_string_min1 "projectName" p o
      <*> field (z_optional z_string) "projectDescription" p o
      <*> field z_string_min1 "categoryId" p o
      <*> field EnvTypeSchema "env" p o
      <*> field z_string_url "url" p o
      <*> field (z_optional z_string) "envDescription" p o
      <*> field (z_optional z_string) "icon" p o
      <*> field z_boolean "enabled" p o
      <*> field z_number_int "order" p o).

Definition safeParse {A : Type} (s : Schema A) (v : JsVal) : SafeParse A := s [] v.
End Schemas.


(** ** [scripts/validate.ts] *)

Record ValidationResult : Type := mkResult {
  valid : bool;
  errors : list string
}.

(** [l.filter((x, index) => l.indexOf(x) !== index)]: every occurrence of a
    value but its first. *)
Definition laterOccurrences (l : list string) : list string :=
  filter_index (fun x index => negb (indexOf String.eqb l x =? index)) l.

(** [${err.path.join('.')} - ${err.message}] *)
Definition issueText (err : ZodIssue) : string :=
  (join "." (path err) ++ " - " ++ message err)%string.

(** The outcome of [process.exit(code)] after the errors were printed, or of
    an exception that leaves [main]. *)
Inductive Outcome : Type :=
| Exit (code : Z) (allErrors : list string)
| Uncaught (e : JsError).

(** What [loadYaml] gives for each of the four data files. *)
Record DataFiles : Type := mkFiles {
  categories_yaml : Completion JsVal;
  projects_yaml : Completion JsVal;
  project_envs_yaml : Completion JsVal;
  links_yaml : Completion JsVal
}.

(** The body of the [try] block of [main]: it appends to [allErrors] and may
    stop at an exception, which leaves what was appended so far in place. *)
Definition Try (A : Type) : Type := list string -> list string * Completion A.

Definition ret {A : Type} (a : A) : Try A := fun allErrors => (allErrors, Normal a).

Definition bind {A B : Type} (c : Try A) (k : A -> Try B) : Try B :=
  fun allErrors =>
    match c allErrors with
    | (allErrors', Normal a) => k a allErrors'
    | (allErrors', Throw e) => (allErrors', Throw e)
    end.

Definition lift {A : Type} (c : Completion A) : Try A := fun allErrors => (allErrors, c).

(** [allErrors.push(...more)] *)
Definition push (more : list string) : Try unit :=
  fun allErrors => ((allErrors ++ more)%list, Normal tt).

Notation "x <- c ;; k" := (bind c (fun x => k))
  (at level 61, c at next level, right associativity).
Notation "c ;;; k" := (bind c (fun _ => k))
  (at level 61, right associativity).

Section Validate.
Variable host : Host.

(** Nothing inside the [try] of a validator throws: [safeParse] returns its
    verdict, and the rest works on the typed [parsed.data]. *)
Definition validateCategories (categories : JsVal) : ValidationResult :=
  match safeParse (z_array host (CategorySchema host)) categories with
  | Failure issues =>
      {| valid := false;
         errors := map (fun err => "Category validation error: " ++ issueText err)%string
                       issues |}
  | Success data =>
      let ids := map Category.id data in
      let duplicateIds := laterOccurrences ids in
      let errors :=
        if (0 <? List.length duplicateIds)%nat
        then ["Duplicate category IDs: " ++ join ", " duplicateIds]%string
        else [] in
      {| valid := (List.length errors =? 0)%nat; errors := errors |}
  end.

Definition validateProjects (projects : JsVal) : ValidationResult :=
  match safeParse (z_array host (ProjectSchema host)) projects with
  | Failure issues =>
      {| valid := false;
         errors := map (fun err => "Project validation error: " ++ issueText err)%string
                       issues |}
  | Success data =>
      let ids := map Project.id data in
      let duplicateIds := laterOccurrences ids in
      let errors1 :=
        if (0 <? List.length duplicateIds)%nat
        then ["Duplicate project IDs: " ++ join ", " duplicateIds]%string
        else [] in
      let names := map Project.name data in
      let duplicateNames := laterOccurrences names in
      let errors2 :=
        if (0 <? List.length duplicateNames)%nat
        then ["Duplicate project names: " ++ join ", " duplicateNames]%string
        else [] in
      let errors := (errors1 ++ errors2)%list in
      {| valid := (List.length errors =? 0)%nat; errors := errors |}
  end.

(** The ids of the env records that no loaded project carries. *)
Definition invalidProjectIds (data : list ProjectEnv.t) (projectIds : list JsVal)
    : list string :=
  filter (fun id => negb (includes projectIds (JStr id)))
         (map ProjectEnv.projectId data).

(** [${e.projectId}-${e.env}] for every env record. *)
Definition combinations (data : list ProjectEnv.t) : list string :=
  map (fun e => ProjectEnv.projectId e ++ "-" ++ EnvType_str (ProjectEnv.env e))%string
      data.

Definition validateProjectEnvs (envs : JsVal) (categoryIds projectIds : list JsVal)
    : ValidationResult :=
  match safeParse (z_array host (ProjectEnvSchema host)) envs with
  | Failure issues =>
      {| valid := false;
         errors := map (fun err => "ProjectEnv validation error: " ++ issueText err)%string
                       issues |}
  | Success data =>
      let invalidProjectIds := invalidProjectIds data projectIds in
      let errors1 :=
        if (0 <? List.length invalidProjectIds)%nat
        then ["ProjectEnv references non-existent projectIds: "
              ++ join ", " (Set_spread String.eqb invalidProjectIds)]%string
        else [] in
      let combinations := combinations data in
      let duplicateCombinations := laterOccurrences combinations in
      let errors2 :=
        if (0 <? List.length duplicateCombinations)%nat
        then ["Duplicate projectId-env combinations: "
              ++ join ", " (Set_spread String.eqb duplicateCombinations)]%string
        else [] in
      let errors := (errors1 ++ errors2)%list in
      {| valid := (List.length errors =? 0)%nat; errors := errors |}
  end.

(** [(l) => l.categoryId] as a condition: an absent or empty string is
    falsy. *)
Definition hasCategory (l : Link.t) : bool :=
  match Link.categoryId l with
  | Some s => negb (String.eqb s "")
  | None => false
  end.

Definition validateLinks (links : JsVal) (categoryIds : list JsVal) : ValidationResult :=
  match safeParse (z_array host (LinkSchema host)) links with
  | Failure issues =>
      {| valid := false;
         errors := map (fun err => "Link validation error: " ++ issueText err)%string
                       issues |}
  | Success data =>
      let ids := map Link.id data in
      let duplicateIds := laterOccurrences ids in
      let errors1 :=
        if (0 <? List.length duplicateIds)%nat
        then ["Duplicate link IDs: " ++ join ", " duplicateIds]%string
        else [] in
      let linksWithCategory := filter hasCategory data in
      let invalidCategoryIds :=
        filter (fun id => negb (includes categoryIds (JStr id)))
               (map (fun l => match Link.categoryId l with
                              | Some s => s
                              | None => ""
                              end) linksWithCategory) in
      let errors2 :=
        if (0 <? List.length invalidCategoryIds)%nat
        then ["Link references non-existent categoryIds: "
              ++ join ", " (Set_spread String.eqb invalidCategoryIds)]%string
        else [] in
      let errors := (errors1 ++ errors2)%list in
      {| valid := (List.length errors =? 0)%nat; errors := errors |}
  end.

(** [if (!result.valid) allErrors.push(...result.errors)] *)
Definition collect (result : ValidationResult) : Try unit :=
  if negb (valid result) then push (errors result) else ret tt.

(** The foreign-key check of [main] on the loaded projects. *)
Definition projectForeignKeys (projects : JsVal) (categoryIds : list JsVal) : Try unit :=
  ids <- lift (mapProp "categoryId" projects) ;;
  let invalidCategoryIds := filter (fun id => negb (includes categoryIds id)) ids in
  if (0 <? List.length invalidCategoryIds)%nat
  then push ["Projects reference non-existent categoryIds: "
             ++ joinValues ", " (Set_spread sameValueZero invalidCategoryIds)]%string
  else ret tt.

Definition main_try (files : DataFiles) : Try unit :=
  categories <- lift (categories_yaml files) ;;
  projects <- lift (projects_yaml files) ;;
  projectEnvs <- lift (project_envs_yaml files) ;;
  links <- lift (links_yaml files) ;;
  collect (validateCategories categories) ;;;
  collect (validateProjects projects) ;;;
  categoryIds <- lift (mapProp "id" categories) ;;
  projectIds <- lift (mapProp "id" projects) ;;
  collect (validateProjectEnvs projectEnvs categoryIds projectIds) ;;;
  collect (validateLinks links categoryIds) ;;;
  projectForeignKeys projects categoryIds.

(** [${error}] *)
Definition errorToString (e : JsError) : string :=
  match e with
  | LoadFailure text => text
  | TypeError kind => typeErrorText host kind
  end.

(** [main]: the [try] block, its [catch], and the exit. *)
Definition main_errors (files : DataFiles) : list string :=
  match main_try files [] with
  | (allErrors, Normal _) => allErrors
  | (allErrors, Throw error) =>
      (allErrors ++ ["Failed to read data files: " ++ errorToString error]%string)%list
  end.

Definition main (files : DataFiles) : Outcome :=
  let allErrors := main_errors files in
  if (List.length allErrors =? 0)%nat then Exit 0 allErrors else Exit 1 allErrors.
End Validate.

(** ** A host and a collation to run the scripts on examples *)

(** [typeof]-like name of a loaded value, as Zod prints it. *)
Definition typeName (v : JsVal) : string :=
  match v with
  | JUndefined => "undefined"
  | JNull => "null"
  | JBool _ => "boolean"
  | JNum _ => "number"
  | JStr _ => "string"
  | JArr _ => "array"
  | JObj _ => "object"
  end.

(** A host for the examples: URLs are the strings that start with an http
    scheme, issues are worded as Zod 3 words them and [TypeError]s as V8 words
    them.  No theorem below depends on this choice; the examples only need
    some host to run on. *)
Definition sampleHost : Host :=
  {| isUrl := fun s => String.prefix "http://" s || String.prefix "https://" s;
     zodMessage := fun k =>
       match k with
       | invalid_type _ JUndefined => "Required"
       | invalid_type expected v => "Expected " ++ expected ++ ", received " ++ typeName v
       | too_small_string n =>
           "String must contain at least " ++ indexToString n ++ " character(s)"
       | too_small_number n =>
           "Number must be greater than or equal to " ++ numberToString n
       | invalid_string_url => "Invalid url"
       | invalid_enum_value options received =>
           "Invalid enum value. Expected "
           ++ join " | " (map (fun o => "'" ++ o ++ "'") options)
           ++ ", received '" ++ received ++ "'"
       end%string;
     typeErrorText := fun k =>
       match k with
       | NotAFunction prop => "TypeError: " ++ prop ++ " is not a function"
       | NullishRead v prop =>
           "TypeError: Cannot read properties of " ++ toString v
           ++ " (reading '" ++ prop ++ "')"
       end%string |}.

(** A collation for the examples: the order of the code units. *)
Definition codeUnitCompare (a b : string) : Z :=
  match String_as_OT.compare a b with
  | Lt => -1
  | Eq => 0
  | Gt => 1
  end.

(** ** Notions used to state the properties *)

(** The projects an env record is joined with. *)
Definition projectsOf (projects : list Project.t) (e : ProjectEnv.t) : list Project.t :=
  filter (fun project => envOf project e) projects.

(** The composite key of an env record. *)
Definition envKey (e : ProjectEnv.t) : string * EnvType :=
  (ProjectEnv.projectId e, ProjectEnv.env e).

(** The values of [suf] that already occur in [pre] or earlier in [suf]. *)
Fixpoint seenBefore (pre suf : list string) : list string :=
  match suf with
  | [] => []
  | x :: r =>
      if existsb (String.eqb x) pre then x :: seenBefore (pre ++ [x]) r
      else seenBefore (pre ++ [x]) r
  end.

(** What [main] takes from a validator's result. *)
Definition errorsOf (r : ValidationResult) : list string :=
  if valid r then [] else errors r.

(** The first of the four loads that throws, if any. *)
Definition firstLoadFailure (files : DataFiles) : option JsError :=
  match categories_yaml files, projects_yaml files,
        project_envs_yaml files, links_yaml files with
  | Throw e, _, _, _ => Some e
  | Normal _, Throw e, _, _ => Some e
  | Normal _, Normal _, Throw e, _ => Some e
  | Normal _, Normal _, Normal _, Throw e => Some e
  | Normal _, Normal _, Normal _, Normal _ => None
  end.

(** The issues of a parse result; none when it succeeded. *)
Definition issuesOf {A : Type} (r : SafeParse A) : list ZodIssue :=
  match r with
  | Success _ => []
  | Failure e => e
  end.

(** The issues of the elements of an array, each checked under its index,
    from index [i] on. *)
Fixpoint elementIssues {A : Type} (s : Schema A) (p : list string)
    (l : list JsVal) (i : nat) : list ZodIssue :=
  match l with
  | [] => []
  | x :: r => (issuesOf (s (p ++ [indexToString i])%list x) ++ elementIssues s p r (S i))%list
  end.

(** A schema that never fails without an issue. *)
Definition reportsIssues {A : Type} (s : Schema A) : Prop :=
  forall p v, s p v <> Failure [].

(** A loaded value that an optional string key accepts, with what it parses
    to. *)
Definition optionalString (v : JsVal) (o : option string) : Prop :=
  match o with
  | None => v = JUndefined
  | Some s => v = JStr s
  end.

(** The same for the optional, non-negative [order]. *)
Definition optionalOrder (v : JsVal) (o : option Z) : Prop :=
  match o with
  | None => v = JUndefined
  | Some n => v = JNum n /\ 0 <= n
  end.

(** The same for a boolean key with the default [d]. *)
Definition booleanOr (d : bool) (v : JsVal) (b : bool) : Prop :=
  (v = JUndefined /\ b = d) \/ v = JBool b.

(** The fields of a loaded object that the schema of an entity accepts, with
    the record they parse to.  Keys the schema does not name play no part. *)
Definition categoryFields (fields : list (string * JsVal)) (c : Category.t) : Prop :=
  getField fields "id" = JStr (Category.id c) /\ Category.id c <> ""
  /\ getField fields "name" = JStr (Category.name c) /\ Category.name c <> ""
  /\ optionalString (getField fields "description") (Category.description c)
  /\ optionalString (getField fields "icon") (Category.icon c)
  /\ optionalOrder (getField fields "order") (Category.order c).

Definition projectFields (fields : list (string * JsVal)) (x : Project.t) : Prop :=
  getField fields "id" = JStr (Project.id x) /\ Project.id x <> ""
  /\ getField fields "name" = JStr (Project.name x) /\ Project.name x <> ""
  /\ optionalString (getField fields "description") (Project.description x)
  /\ getField fields "categoryId" = JStr (Project.categoryId x)
  /\ Project.categoryId x <> ""
  /\ optionalString (getField fields "icon") (Project.icon x)
  /\ optionalOrder (getField fields "order") (Project.order x).

Definition projectEnvFields (host : Host) (fields : list (string * JsVal))
    (e : ProjectEnv.t) : Prop :=
  getField fields "projectId" = JStr (ProjectEnv.projectId e)
  /\ ProjectEnv.projectId e <> ""
  /\ getField fields "env" = JStr (EnvType_str (ProjectEnv.env e))
  /\ getField fields "url" = JStr (ProjectEnv.url e)
  /\ isUrl host (ProjectEnv.url e) = true
  /\ optionalString (getField fields "description") (ProjectEnv.description e)
  /\ booleanOr true (getField fields "enabled") (ProjectEnv.enabled e).

Definition linkFields (host : Host) (fields : list (string * JsVal)) (l : Link.t) : Prop :=
  getField fields "id" = JStr (Link.id l) /\ Link.id l <> ""
  /\ getField fields "name" = JStr (Link.name l) /\ Link.name l <> ""
  /\ getField fields "url" = JStr (Link.url l) /\ isUrl host (Link.url l) = true
  /\ optionalString (getField fields "description") (Link.description l)
  /\ optionalString (getField fields "categoryId") (Link.categoryId l)
  /\ optionalString (getField fields "icon") (Link.icon l)
  /\ optionalOrder (getField fields "order") (Link.order l)
  /\ booleanOr true (getField fields "enabled") (Link.enabled l).

(** The integrity of a parsed dataset: unique keys, and every reference
    pointing at a record that exists. *)
Definition integrity (C : list Category.t) (P : list Project.t)
    (E : list ProjectEnv.t) (L : list Link.t) : Prop :=
  NoDup (map Category.id C)
  /\ NoDup (map Project.id P)
  /\ NoDup (map Project.name P)
  /\ (forall x, In x P -> In (Project.categoryId x) (map Category.id C))
  /\ (forall e, In e E -> In (ProjectEnv.projectId e) (map Project.id P))
  /\ NoDup (map envKey E)
  /\ NoDup (map Link.id L)
  /\ (forall l s, In l L -> Link.categoryId l = Some s -> s <> "" ->
                  In s (map Category.id C)).

(** Whether some category carries the [categoryId] of an item. *)
Definition categoryExists (categories : list Category.t) (item : NavigationItem.t) : bool :=
  existsb (fun c => String.eqb (NavigationItem.categoryId item) (Category.id c)) categories.

(** Whether some project carries the [projectId] of an env record. *)
Definition projectExists (projects : list Project.t) (e : ProjectEnv.t) : bool :=
  existsb (fun project => envOf project e) projects.

(** The number of items over all blocks. *)
Definition itemCount (blocks : list CategoryBlock.t) : nat :=
  list_sum (map (fun block => List.length (CategoryBlock.items block)) blocks).

(** A schema whose issues all carry the place it was asked to check. *)
Definition issuesAtPlace {A : Type} (s : Schema A) : Prop :=
  forall p v, Forall (fun i => path i = p) (issuesOf (s p v)).

(** An issue found at the place [p] of a document, or at one of the keys
    [keys] of the object there. *)
Definition pointsAt (keys : list string) (p : list string) (i : ZodIssue) : Prop :=
  path i = p \/ exists key, In key keys /\ path i = (p ++ [key])%list.

(** The keys each schema names. *)
Definition categoryKeys : list string := ["id"; "name"; "description"; "icon"; "order"].
Definition projectKeys : list string :=
  ["id"; "name"; "description"; "categoryId"; "icon"; "order"].
Definition projectEnvKeys : list string :=
  ["projectId"; "env"; "url"; "description"; "enabled"].
Definition linkKeys : list string :=
  ["id"; "name"; "url"; "description"; "categoryId"; "icon"; "order"; "enabled"].




(** The fields of an object that [NavigationItemSchema] accepts, with the
    record they parse to. *)
Definition navigationItemFields (host : Host) (fields : list (string * JsVal))
    (item : NavigationItem.t) : Prop :=
  getField fields "id" = JStr (NavigationItem.id item)
  /\ NavigationItem.id item <> ""
  /\ getField fields "projectId" = JStr (NavigationItem.projectId item)
  /\ NavigationItem.projectId item <> ""
  /\ getField fields "projectName" = JStr (NavigationItem.projectName item)
  /\ NavigationItem.projectName item <> ""
  /\ optionalString (getField fields "projectDescription")
                    (NavigationItem.projectDescription item)
  /\ getField fields "categoryId" = JStr (NavigationItem.categoryId item)
  /\ NavigationItem.categoryId item <> ""
  /\ getField fields "env" = JStr (EnvType_str (NavigationItem.env item))
  /\ getField fields "url" = JStr (NavigationItem.url item)
  /\ isUrl host (NavigationItem.url item) = true
  /\ optionalString (getField fields "envDescription")
                    (NavigationItem.envDescription item)
  /\ optionalString (getField fields "icon") (NavigationItem.icon item)
  /\ getField fields "enabled" = JBool (NavigationItem.enabled item)
  /\ getField fields "order" = JNum (NavigationItem.order item).

(** ** Example data *)

Definition project_a1 : Project.t :=
  Project.mk "a" "Alpha" None "infra" None None.
Definition project_a2 : Project.t :=
  Project.mk "a" "Alpha again" None "infra" None None.
Definition project_svc : Project.t :=
  Project.mk "svc" "Service" None "infra" None None.
Definition project_web : Project.t :=
  Project.mk "web" "Website" None "infra" None None.

Definition env_a_prod : ProjectEnv.t :=
  ProjectEnv.mk "a" prod "https://a.example.com" None true.
Definition env_svc_prod : ProjectEnv.t :=
  ProjectEnv.mk "svc" prod "https://prod.example.com" None true.
Definition env_svc_test : ProjectEnv.t :=
  ProjectEnv.mk "svc" test "https://test.example.com" None true.
Definition env_svc_test_off : ProjectEnv.t :=
  ProjectEnv.mk "svc" test "https://test.example.com" None false.
Definition env_web_prod : ProjectEnv.t :=
  ProjectEnv.mk "web" prod "https://www.example.com" None true.
Definition env_web_staging : ProjectEnv.t :=
  ProjectEnv.mk "web" staging "https://staging.example.com" None false.

Definition category_infra : Category.t :=
  Category.mk "infra" "Infrastructure" None None (Some 1).
Definition category_misc : Category.t :=
  Category.mk "misc" "Miscellaneous" None None None.

Definition project_misc : Project.t :=
  Project.mk "m" "Misc tool" None "misc" None None.
Definition project_late : Project.t :=
  Project.mk "l" "Late tool" None "late" None None.
Definition env_m_prod : ProjectEnv.t :=
  ProjectEnv.mk "m" prod "https://m.example.com" None true.
Definition env_l_prod : ProjectEnv.t :=
  ProjectEnv.mk "l" prod "https://l.example.com" None true.

Definition sample_projects : list Project.t := [project_svc; project_web].
Definition sample_envs : list ProjectEnv.t :=
  [env_svc_test; env_web_staging; env_svc_prod; env_web_prod].
Definition sample_items : list NavigationItem.t :=
  expandNavigationItems sample_projects sample_envs.

(** A category without [order] and a category with the [order] 1000, one
    item each. *)
Definition late_items : list NavigationItem.t :=
  expandNavigationItems [project_misc; project_late] [env_m_prod; env_l_prod].

(** ** Example documents for [validate.ts] *)

Definition rawCategory (id name : string) : JsVal :=
  JObj [("id", JStr id); ("name", JStr name)].

Definition rawProject (id name categoryId : string) : JsVal :=
  JObj [("id", JStr id); ("name", JStr name); ("categoryId", JStr categoryId)].

Definition rawEnv (projectId env url : string) : JsVal :=
  JObj [("projectId", JStr projectId); ("env", JStr env); ("url", JStr url)].

(** Three categories with the id [a]. *)
Definition categories_aaa : JsVal :=
  JArr [rawCategory "a" "A"; rawCategory "a" "B"; rawCategory "a" "C"].

(** Three projects with the id [p] and the name [P]. *)
Definition projects_ppp : JsVal :=
  JArr [rawProject "p" "P" "a"; rawProject "p" "P" "a"; rawProject "p" "P" "a"].

(** Three env records with the key [(ghost, prod)]. *)
Definition envs_ghost : JsVal :=
  JArr [rawEnv "ghost" "prod" "https://g.example.com";
        rawEnv "ghost" "prod" "https://g.example.com";
        rawEnv "ghost" "prod" "https://g.example.com"].

(** One valid category; one project with an empty name (a schema violation)
    and the id of no category. *)
Definition categories_one : JsVal := JArr [rawCategory "infra" "Infrastructure"].
Definition projects_unnamed : JsVal := JArr [rawProject "svc" "" "ghost"].

Definition files_unnamed_project : DataFiles :=
  {| categories_yaml := Normal categories_one;
     projects_yaml := Normal projects_unnamed;
     project_envs_yaml := Normal (JArr [rawEnv "svc" "prod" "https://svc.example.com"]);
     links_yaml := Normal (JArr []) |}.

(** [projects.yaml] cannot be read. *)
Definition files_missing_projects : DataFiles :=
  {| categories_yaml := Normal categories_one;
     projects_yaml :=
       Throw (LoadFailure
                "Error: ENOENT: no such file or directory, open 'data/projects.yaml'");
     project_envs_yaml := Normal (JArr []);
     links_yaml := Normal (JArr []) |}.

(** A categories document that is no list, and the files around it. *)
Definition files_null_categories : DataFiles :=
  {| categories_yaml := Normal JNull;
     projects_yaml := Normal (JArr [rawProject "svc" "Service" "infra"]);
     project_envs_yaml := Normal (JArr [rawEnv "ghost" "prod" "not a url"]);
     links_yaml := Normal JNull |}.

(** The keys of an item as [expandNavigationItems] builds it, [enabled]
    apart. *)
Definition rawItemFields : list (string * JsVal) :=
  [("id", JStr "svc-prod"); ("projectId", JStr "svc"); ("projectName", JStr "Service");
   ("categoryId", JStr "infra"); ("env", JStr "prod");
   ("url", JStr "https://prod.example.com"); ("order", JNum 3)].

(** A dataset that passes every check. *)
Definition files_sound : DataFiles :=
  {| categories_yaml := Normal categories_one;
     projects_yaml := Normal (JArr [rawProject "svc" "Service" "infra"]);
     project_envs_yaml :=
       Normal (JArr [rawEnv "svc" "prod" "https://svc.example.com";
                     rawEnv "svc" "test" "https://test.example.com"]);
     links_yaml := Normal (JArr []) |}.

(** * Properties *)

(** ** Facts about [Array_sort] *)

Section SortFacts.
Context {A : Type}.
Variable compareFn : A -> A -> Z.

Lemma sort_insert_perm (x : A) (l : list A) :
  Permutation (x :: l) (sort_insert compareFn x l).
Proof.
  induction l as [|y r IH]; simpl.
  - apply Permutation_refl.
  - destruct (compareFn x y <=? 0).
    + apply Permutation_refl.
    + eapply perm_trans; [apply perm_swap|].
      now apply perm_skip.
Qed.

Lemma Array_sort_perm (l : list A) : Permutation l (Array_sort compareFn l).
Proof.
  induction l as [|x r IH]; simpl.
  - apply perm_nil.
  - eapply perm_trans; [apply perm_skip, IH|].
    apply sort_insert_perm.
Qed.

Lemma Array_sort_In (l : list A) (x : A) :
  In x (Array_sort compareFn l) <-> In x l.
Proof.
  split; intro H.
  - eapply Permutation_in; [apply Permutation_sym, Array_sort_perm|exact H].
  - eapply Permutation_in; [apply Array_sort_perm|exact H].
Qed.

Lemma Array_sort_length (l : list A) :
  List.length (Array_sort compareFn l) = List.length l.
Proof. symmetry. apply Permutation_length, Array_sort_perm. Qed.

(** A consistent comparator: whenever it puts [a] after [b] it puts [b]
    before [a], and being put before is transitive. *)
Hypothesis compare_total : forall a b, 0 < compareFn a b -> compareFn b a <= 0.
Hypothesis compare_trans :
  forall a b c, compareFn a b <= 0 -> compareFn b c <= 0 -> compareFn a c <= 0.

Lemma sort_insert_sorted (x : A) (l : list A) :
  StronglySorted (before compareFn) l ->
  StronglySorted (before compareFn) (sort_insert compareFn x l).
Proof.
  induction 1 as [|y r Hr IH Hy]; simpl.
  - constructor; constructor.
  - destruct (compareFn x y <=? 0) eqn:E.
    + apply Z.leb_le in E.
      constructor; [constructor; assumption|].
      constructor; [exact E|].
      eapply Forall_impl; [|exact Hy].
      intros z Hz. unfold before in *. eapply compare_trans; eassumption.
    + apply Z.leb_gt in E.
      constructor; [exact IH|].
      eapply Permutation_Forall; [apply sort_insert_perm|].
      constructor; [|exact Hy].
      unfold before. now apply compare_total.
Qed.

Lemma Array_sort_sorted (l : list A) :
  StronglySorted (before compareFn) (Array_sort compareFn l).
Proof.
  induction l as [|x r IH]; simpl.
  - constructor.
  - now apply sort_insert_sorted.
Qed.
End SortFacts.

Section KeySort.
Context {A : Type}.
Variable key : A -> Z.



End KeySort.

(** ** Facts about lists *)

Lemma StronglySorted_nth_error {A : Type} (R : A -> A -> Prop) (l : list A) :
  StronglySorted R l ->
  forall i j x y, (i < j)%nat ->
    nth_error l i = Some x -> nth_error l j = Some y -> R x y.
Proof.
  induction 1 as [|a r Hr IH Ha]; intros i j x y Hij Hi Hj.
  - destruct i; discriminate.
  - destruct j as [|j]; [lia|].
    destruct i as [|i]; simpl in Hi, Hj.
    + injection Hi as <-.
      rewrite Forall_forall in Ha. apply Ha.
      eapply nth_error_In; eassumption.
    + apply (IH i j); [lia|assumption|assumption].
Qed.

Lemma NoDup_nth_error_eq {A : Type} (l : list A) (i j : nat) (x : A) :
  NoDup l -> nth_error l i = Some x -> nth_error l j = Some x -> i = j.
Proof.
  intros Hnd Hi Hj.
  rewrite NoDup_nth_error in Hnd.
  apply Hnd; [|congruence].
  apply nth_error_Some. congruence.
Qed.

Lemma NoDup_map_In_eq {A B : Type} (f : A -> B) (l : list A) (x y : A) :
  NoDup (map f l) -> In x l -> In y l -> f x = f y -> x = y.
Proof.
  induction l as [|a r IH]; simpl; intros Hnd Hx Hy E; [contradiction|].
  inversion Hnd as [|? ? Hnotin Hnd']; subst.
  destruct Hx as [<-|Hx], Hy as [<-|Hy].
  - reflexivity.
  - exfalso. apply Hnotin. rewrite E. now apply in_map.
  - exfalso. apply Hnotin. rewrite <- E. now apply in_map.
  - now apply IH.
Qed.

Lemma NoDup_map_filter {V K : Type} (key : V -> K) (keep : V -> bool) (vs : list V)
    (Hnd : NoDup (map key vs)) :
  NoDup (map key (filter keep vs)).
Proof.
  induction vs as [|v vs IH]; simpl; [constructor|].
  inversion Hnd as [|? ? Hnotin Hnd']; subst.
  destruct (keep v); simpl; [constructor|]; auto.
  intro Hin. apply Hnotin.
  apply in_map_iff in Hin. destruct Hin as [z [Hz Hin]].
  apply filter_In in Hin. rewrite <- Hz. apply in_map. tauto.
Qed.

Lemma Permutation_filter {A : Type} (p : A -> bool) (l l' : list A) :
  Permutation l l' -> Permutation (filter p l) (filter p l').
Proof.
  induction 1 as [|x l l' _ IH|x y l|l l' l'' _ IH1 _ IH2]; simpl.
  - apply perm_nil.
  - destruct (p x); [apply perm_skip|]; exact IH.
  - destruct (p x), (p y); try apply Permutation_refl. apply perm_swap.
  - eapply perm_trans; eassumption.
Qed.

Lemma filter_none {A : Type} (p : A -> bool) (l : list A) :
  (forall x, In x l -> p x = false) -> filter p l = [].
Proof.
  induction l as [|a r IH]; intro H; [reflexivity|].
  simpl. rewrite (H a) by now left.
  apply IH. intros x Hx. apply H. now right.
Qed.

Lemma filter_comm {A : Type} (f g : A -> bool) (l : list A) :
  filter f (filter g l) = filter g (filter f l).
Proof.
  induction l as [|x r IH]; [reflexivity|].
  cbn [filter]. destruct (f x) eqn:Ef, (g x) eqn:Eg; cbn [filter];
    rewrite ?Ef, ?Eg, IH; reflexivity.
Qed.

Lemma filter_map_comm {A B : Type} (f : B -> bool) (g : A -> B) (l : list A) :
  filter f (map g l) = map g (filter (fun x => f (g x)) l).
Proof.
  induction l as [|x r IH]; [reflexivity|].
  cbn [map filter]. rewrite IH. now destruct (f (g x)).
Qed.

(** ** Facts about strings *)

Lemma list_ascii_of_string_app (a b : string) :
  list_ascii_of_string (a ++ b) = (list_ascii_of_string a ++ list_ascii_of_string b)%list.
Proof. induction a as [|c a IH]; simpl; [reflexivity|now rewrite IH]. Qed.

Lemma list_ascii_of_string_inj (a b : string) :
  list_ascii_of_string a = list_ascii_of_string b -> a = b.
Proof.
  intro H. rewrite <- (string_of_list_ascii_of_string a), <- (string_of_list_ascii_of_string b).
  now rewrite H.
Qed.

Lemma append_inv_tail (a b s : string) : (a ++ s = b ++ s)%string -> a = b.
Proof.
  intro H. apply list_ascii_of_string_inj.
  apply (f_equal list_ascii_of_string) in H.
  rewrite !list_ascii_of_string_app in H.
  now apply app_inv_tail in H.
Qed.

(** The last character of a combination tells the environment: the three
    names end in different letters. *)
Lemma combination_env (a b : string) (e1 e2 : EnvType) :
  (a ++ "-" ++ EnvType_str e1 = b ++ "-" ++ EnvType_str e2)%string -> e1 = e2.
Proof.
  intro H. apply (f_equal list_ascii_of_string) in H.
  rewrite !list_ascii_of_string_app in H.
  destruct e1, e2; try reflexivity; exfalso; simpl in H;
    repeat match type of H with
           | context [(?l ++ ?x :: ?y :: ?r)%list] =>
               change (l ++ x :: y :: r)%list with (l ++ [x] ++ y :: r)%list in H;
               rewrite (app_assoc l [x]) in H
           end;
    apply app_inj_tail in H; destruct H as [_ H]; discriminate H.
Qed.

Lemma combination_inj (a b : string) (e1 e2 : EnvType) :
  (a ++ "-" ++ EnvType_str e1 = b ++ "-" ++ EnvType_str e2)%string ->
  a = b /\ e1 = e2.
Proof.
  intro H. pose proof (combination_env _ _ _ _ H) as <-.
  split; [|reflexivity].
  eapply append_inv_tail. exact H.
Qed.

(** ** [expandNavigationItems] *)

Lemma expand_In (projects : list Project.t) (projectEnvs : list ProjectEnv.t)
    (item : NavigationItem.t) :
  In item (expandNavigationItems projects projectEnvs) <->
  exists project env,
    In project projects /\ In env projectEnvs /\
    ProjectEnv.projectId env = Project.id project /\
    item = navigationItem project env.
Proof.
  unfold expandNavigationItems. rewrite in_flat_map. split.
  - intros [project [Hp Hin]]. apply in_map_iff in Hin.
    destruct Hin as [env [<- Hin]]. apply filter_In in Hin.
    destruct Hin as [He Hm]. apply String.eqb_eq in Hm.
    exists project, env. auto.
  - intros [project [env [Hp [He [Hm ->]]]]].
    exists project. split; [exact Hp|].
    apply in_map, filter_In. split; [exact He|].
    now apply String.eqb_eq.
Qed.

Lemma expand_length_nil (projects : list Project.t) :
  List.length (expandNavigationItems projects []) = 0%nat.
Proof. induction projects as [|p r IH]; [reflexivity|exact IH]. Qed.

Lemma expand_length_cons (projects : list Project.t) (e : ProjectEnv.t)
    (projectEnvs : list ProjectEnv.t) :
  List.length (expandNavigationItems projects (e :: projectEnvs)) =
  (List.length (projectsOf projects e)
   + List.length (expandNavigationItems projects projectEnvs))%nat.
Proof.
  unfold expandNavigationItems, projectsOf. cbv zeta.
  induction projects as [|p r IH]; [reflexivity|].
  cbn [flat_map]. rewrite !length_app, !length_map, IH.
  cbn [filter]. destruct (envOf p e); cbn [List.length]; lia.
Qed.

Lemma projectsOf_unique (projects : list Project.t) (e : ProjectEnv.t) :
  NoDup (map Project.id projects) ->
  (exists project, In project projects /\ Project.id project = ProjectEnv.projectId e) ->
  List.length (projectsOf projects e) = 1%nat.
Proof.
  unfold projectsOf, envOf.
  induction projects as [|p r IH]; intros Hnd [q [Hq Hid]]; [contradiction|].
  inversion Hnd as [|? ? Hnotin Hnd']; subst.
  cbn [filter]. destruct (String.eqb_spec (ProjectEnv.projectId e) (Project.id p)) as [E|E].
  - cbn [List.length]. f_equal.
    assert (Hnone : filter (fun project => String.eqb (ProjectEnv.projectId e) (Project.id project)) r = []).
    { apply filter_none. intros x Hx. apply String.eqb_neq.
      intro E'. apply Hnotin. rewrite <- E, E'. now apply in_map. }
    now rewrite Hnone.
  - apply IH; [exact Hnd'|].
    destruct Hq as [<-|Hq]; [congruence|].
    exists q. auto.
Qed.

Lemma expand_cross_join (projects : list Project.t) (projectEnvs : list ProjectEnv.t) :
  expandNavigationItems projects projectEnvs =
  map (fun pe => navigationItem (fst pe) (snd pe))
      (filter (fun pe => envOf (fst pe) (snd pe)) (list_prod projects projectEnvs)).
Proof.
  unfold expandNavigationItems. cbv zeta.
  induction projects as [|p r IH]; [reflexivity|].
  cbn [flat_map list_prod]. rewrite filter_app, map_app, <- IH. f_equal.
  rewrite filter_map_comm, map_map. reflexivity.
Qed.

(** C4, as the code has it.  For all projects and env records,
    [expandNavigationItems] emits one item per pair of a project and an env
    record with that project's id, in the order of the cross join, so a
    project without env records contributes none.  When moreover the project
    ids are pairwise distinct and every env record names the id of some
    project, the items are exactly as many as the env records. *)
Theorem expand_cardinality (projects : list Project.t) (projectEnvs : list ProjectEnv.t) :
  expandNavigationItems projects projectEnvs
  = map (fun pe => navigationItem (fst pe) (snd pe))
        (filter (fun pe => envOf (fst pe) (snd pe)) (list_prod projects projectEnvs))
  /\ List.length (expandNavigationItems projects projectEnvs)
     = list_sum (map (fun project => List.length (filter (envOf project) projectEnvs))
                     projects)
  /\ (forall project, In project projects ->
        filter (envOf project) projectEnvs = [] ->
        forall item, In item (expandNavigationItems projects projectEnvs) ->
          NavigationItem.projectId item <> Project.id project)
  /\ (NoDup (map Project.id projects) ->
      (forall e, In e projectEnvs ->
         exists project,
           In project projects /\ Project.id project = ProjectEnv.projectId e) ->
      List.length (expandNavigationItems projects projectEnvs) = List.length projectEnvs).
Proof.
  split; [apply expand_cross_join|]. split; [|split].
  - unfold expandNavigationItems. rewrite length_flat_map.
    f_equal. apply map_ext. intro p. apply length_map.
  - intros project Hp Hnone item Hin Hid.
    apply expand_In in Hin. destruct Hin as [q [env [Hq [He [Hm ->]]]]].
    cbn in Hid.
    assert (Hin : In env (filter (envOf project) projectEnvs)).
    { apply filter_In. split; [exact He|]. unfold envOf. apply String.eqb_eq. congruence. }
    rewrite Hnone in Hin. exact Hin.
  - intros Hnd Hall. induction projectEnvs as [|e r IH].
    + apply expand_length_nil.
    + rewrite expand_length_cons, projectsOf_unique; [|exact Hnd|apply Hall; now left].
      cbn [List.length Nat.add]. f_equal. apply IH.
      intros e' He'. apply Hall. now right.
Qed.

Lemma expand_cardinality_witness :
  List.length (expandNavigationItems sample_projects sample_envs) = List.length sample_envs
  /\ List.length (expandNavigationItems [project_a1; project_a2] [env_a_prod])
     = list_sum (map (fun project => List.length (filter (envOf project) [env_a_prod]))
                     [project_a1; project_a2]).
Proof.
  split.
  - refine (proj2 (proj2 (proj2 (expand_cardinality sample_projects sample_envs))) _ _).
    + repeat constructor; simpl; intuition discriminate.
    + intros e He. simpl in He.
      destruct He as [<-|[<-|[<-|[<-|[]]]]];
        [exists project_svc|exists project_web|exists project_svc|exists project_web];
        simpl; auto.
  - exact (proj1 (proj2 (expand_cardinality [project_a1; project_a2] [env_a_prod]))).
Defined.

(** C4 as stated fails: two projects that share an id are both joined with
    the one env record of that id. *)
Lemma expand_cardinality_counterexample :
  (forall e, In e [env_a_prod] ->
     exists project, In project [project_a1; project_a2]
                     /\ Project.id project = ProjectEnv.projectId e)
  /\ List.length (expandNavigationItems [project_a1; project_a2] [env_a_prod]) = 2%nat
  /\ List.length [env_a_prod] = 1%nat.
Proof.
  split; [|split; reflexivity].
  intros e [<-|[]]. exists project_a1. simpl. auto.
Qed.

(** The ids of the items emitted for one project. *)
Lemma expand_ids_cons (p : Project.t) (r : list Project.t) (projectEnvs : list ProjectEnv.t) :
  map NavigationItem.id (expandNavigationItems (p :: r) projectEnvs) =
  (map (fun e => Project.id p ++ "-" ++ EnvType_str (ProjectEnv.env e))%string
       (filter (envOf p) projectEnvs)
   ++ map NavigationItem.id (expandNavigationItems r projectEnvs))%list.
Proof.
  unfold expandNavigationItems. cbn [flat_map].
  now rewrite map_app, map_map.
Qed.

Lemma ids_of_project_NoDup (p : Project.t) (projectEnvs : list ProjectEnv.t) :
  NoDup (map envKey projectEnvs) ->
  NoDup (map (fun e => Project.id p ++ "-" ++ EnvType_str (ProjectEnv.env e))%string
             (filter (envOf p) projectEnvs)).
Proof.
  intro Hnd.
  apply (NoDup_map_filter envKey (envOf p)) in Hnd.
  revert Hnd. generalize (fun e => proj1 (filter_In (envOf p) e projectEnvs)).
  generalize (filter (envOf p) projectEnvs). intros l Hl.
  induction l as [|e r IH]; simpl; intro Hnd; [constructor|].
  inversion Hnd as [|? ? Hnotin Hnd']; subst.
  constructor.
  - intro Hin. apply in_map_iff in Hin. destruct Hin as [e' [E He']].
    apply combination_inj in E.
    apply Hnotin. apply in_map_iff. exists e'. split; [|exact He'].
    destruct E as [_ E]. unfold envKey. f_equal; [|exact E].
    destruct (Hl e' (or_intror He')) as [_ H1].
    destruct (Hl e (or_introl eq_refl)) as [_ H2].
    unfold envOf in H1, H2. apply String.eqb_eq in H1, H2. congruence.
  - apply IH; [|exact Hnd'].
    intros x Hx. apply Hl. now right.
Qed.

(** C5, as the code has it.  For all projects and env records, the id of
    every emitted item is the id of its project, a hyphen, and the env of its
    env record.  When moreover the project ids are pairwise distinct and the
    (projectId, env) pairs of the env records are pairwise distinct, so are
    the ids of the items. *)
Theorem expand_ids (projects : list Project.t) (projectEnvs : list ProjectEnv.t) :
  Forall (fun item =>
            exists project env,
              In project projects /\ In env projectEnvs /\
              ProjectEnv.projectId env = Project.id project /\
              NavigationItem.projectId item = Project.id project /\
              NavigationItem.env item = ProjectEnv.env env /\
              NavigationItem.id item =
                (Project.id project ++ "-" ++ EnvType_str (ProjectEnv.env env))%string)
         (expandNavigationItems projects projectEnvs)
  /\ Forall (fun item =>
               NavigationItem.id item =
                 (NavigationItem.projectId item ++ "-"
                  ++ EnvType_str (NavigationItem.env item))%string)
            (expandNavigationItems projects projectEnvs)
  /\ (NoDup (map Project.id projects) ->
      NoDup (map envKey projectEnvs) ->
      NoDup (map NavigationItem.id (expandNavigationItems projects projectEnvs))).
Proof.
  split; [|split].
  - apply Forall_forall. intros item Hin. apply expand_In in Hin.
    destruct Hin as [project [env [H1 [H2 [H3 ->]]]]].
    exists project, env. cbn. auto 10.
  - apply Forall_forall. intros item Hin. apply expand_In in Hin.
    destruct Hin as [project [env [_ [_ [_ ->]]]]]. reflexivity.
  - intros Hp He. induction projects as [|p r IH]; [constructor|].
    inversion Hp as [|? ? Hnotin Hp']; subst.
    rewrite expand_ids_cons. apply NoDup_app.
    + now apply ids_of_project_NoDup.
    + now apply IH.
    + intros x Hx Hx'.
      apply in_map_iff in Hx. destruct Hx as [e [<- _]].
      apply in_map_iff in Hx'. destruct Hx' as [item [E Hitem]].
      apply expand_In in Hitem. destruct Hitem as [q [e' [Hq [_ [_ ->]]]]].
      cbn in E. apply combination_inj in E. destruct E as [E _].
      apply Hnotin. rewrite <- E. now apply in_map.
Qed.

Lemma expand_ids_witness :
  NoDup (map NavigationItem.id (expandNavigationItems sample_projects sample_envs))
  /\ Forall (fun item =>
               NavigationItem.id item =
                 (NavigationItem.projectId item ++ "-"
                  ++ EnvType_str (NavigationItem.env item))%string)
            (expandNavigationItems [project_a1; project_a2] [env_a_prod]).
Proof.
  split.
  - refine (proj2 (proj2 (expand_ids sample_projects sample_envs)) _ _);
      repeat constructor; simpl; intuition discriminate.
  - exact (proj1 (proj2 (expand_ids [project_a1; project_a2] [env_a_prod]))).
Defined.

(** C5 as stated fails: the pairs of the env records are pairwise distinct,
    yet two projects that share an id yield the same item id twice. *)
Lemma expand_ids_counterexample :
  NoDup (map envKey [env_a_prod])
  /\ map NavigationItem.id (expandNavigationItems [project_a1; project_a2] [env_a_prod])
     = ["a-prod"; "a-prod"]%string.
Proof.
  split; [|reflexivity].
  repeat constructor. simpl. tauto.
Qed.

(** ** [getEnvOrder] *)

(** [getEnvOrder] is the lookup in the literal. *)
Lemma getEnvOrder_orderMap (env : EnvType) :
  orderMap_get orderMap (EnvType_str env) = Some (getEnvOrder env).
Proof. destruct env; reflexivity. Qed.

(** The upper-case names of the other type file are no keys of the literal. *)
Lemma orderMap_upper_case :
  map (orderMap_get orderMap) EnvType_upper_values = [None; None; None].
Proof. reflexivity. Qed.

Lemma expand_perm (projects : list Project.t) (E E' : list ProjectEnv.t) :
  Permutation E E' ->
  Permutation (expandNavigationItems projects E) (expandNavigationItems projects E').
Proof.
  intro H. unfold expandNavigationItems. cbv zeta.
  induction projects as [|p r IH]; [apply perm_nil|].
  cbn [flat_map]. apply Permutation_app; [|exact IH].
  apply Permutation_map. now apply Permutation_filter.
Qed.

(** C6: the [order] of every emitted item is the weight of its environment,
    1 for production, 2 for staging, 3 for test; declaring the env records in
    another order gives the same items with the same weights. *)
Theorem expand_order_weight (projects : list Project.t) (E E' : list ProjectEnv.t) :
  Permutation E E' ->
  getEnvOrder prod = 1 /\ getEnvOrder staging = 2 /\ getEnvOrder test = 3
  /\ Forall (fun item =>
               NavigationItem.order item =
                 match NavigationItem.env item with
                 | prod => 1
                 | staging => 2
                 | test => 3
                 end)
            (expandNavigationItems projects E)
  /\ Permutation (expandNavigationItems projects E) (expandNavigationItems projects E').
Proof.
  intro H. repeat split; try reflexivity.
  - apply Forall_forall. intros item Hin. apply expand_In in Hin.
    destruct Hin as [project [env [_ [_ [_ ->]]]]]. reflexivity.
  - now apply expand_perm.
Qed.

Lemma expand_order_weight_witness :
  map NavigationItem.order (expandNavigationItems sample_projects sample_envs) = [3; 1; 2; 1]
  /\ Permutation (expandNavigationItems sample_projects sample_envs)
                 (expandNavigationItems sample_projects (rev sample_envs)).
Proof.
  split; [reflexivity|].
  refine (proj2 (proj2 (proj2 (proj2
    (expand_order_weight sample_projects sample_envs (rev sample_envs) _))))).
  apply Permutation_rev.
Defined.

(** ** [groupByCategory] *)

Section GroupFacts.
Variable localeCompare : string -> string -> Z.

Lemma group_In (categories : list Category.t) (navigationItems : list NavigationItem.t)
    (block : CategoryBlock.t) :
  In block (groupByCategory localeCompare categories navigationItems) <->
  exists category,
    In category categories /\
    itemsOf category navigationItems <> [] /\
    block = blockOf localeCompare navigationItems category.
Proof.
  unfold groupByCategory. rewrite Array_sort_In, filter_In, in_map_iff.
  split.
  - intros [[category [<- Hc]] Hlen]. exists category.
    repeat split; try assumption.
    cbn in Hlen. rewrite Array_sort_length in Hlen.
    intro E. rewrite E in Hlen. discriminate.
  - intros [category [Hc [Hne ->]]]. split; [now exists category|].
    cbn. rewrite Array_sort_length.
    destruct (itemsOf category navigationItems); [contradiction|reflexivity].
Qed.

Lemma block_items_In (navigationItems : list NavigationItem.t) (category : Category.t)
    (item : NavigationItem.t) :
  In item (CategoryBlock.items (blockOf localeCompare navigationItems category)) <->
  In item navigationItems /\
  NavigationItem.categoryId item = Category.id category /\
  NavigationItem.enabled item = true.
Proof.
  cbn. rewrite Array_sort_In. unfold itemsOf. rewrite filter_In, andb_true_iff, String.eqb_eq.
  tauto.
Qed.

(** The blocks before they are sorted: one per category that keeps an item,
    in the order of the categories. *)
Lemma group_unsorted (categories : list Category.t) (navigationItems : list NavigationItem.t) :
  filter (fun block => 0 <? Z.of_nat (List.length (CategoryBlock.items block)))
         (map (blockOf localeCompare navigationItems) categories) =
  map (blockOf localeCompare navigationItems)
      (filter (fun c => 0 <? Z.of_nat (List.length (itemsOf c navigationItems))) categories).
Proof.
  induction categories as [|c r IH]; [reflexivity|].
  cbn [map filter]. rewrite IH. cbn [CategoryBlock.items blockOf].
  rewrite Array_sort_length.
  now destruct (0 <? Z.of_nat (List.length (itemsOf c navigationItems))).
Qed.

Lemma compareItems_total (a b : NavigationItem.t) :
  (forall s t, 0 < localeCompare s t -> localeCompare t s <= 0) ->
  0 < compareItems localeCompare a b -> compareItems localeCompare b a <= 0.
Proof.
  intro Htotal. unfold compareItems.
  rewrite (Z.eqb_sym (NavigationItem.order b)).
  destruct (Z.eqb_spec (NavigationItem.order a) (NavigationItem.order b)); cbn [negb].
  - apply Htotal.
  - lia.
Qed.

Lemma compareItems_trans (a b c : NavigationItem.t) :
  (forall s t u, localeCompare s t <= 0 -> localeCompare t u <= 0 -> localeCompare s u <= 0) ->
  compareItems localeCompare a b <= 0 -> compareItems localeCompare b c <= 0 ->
  compareItems localeCompare a c <= 0.
Proof.
  intro Htrans. unfold compareItems.
  destruct (Z.eqb_spec (NavigationItem.order a) (NavigationItem.order b)),
           (Z.eqb_spec (NavigationItem.order b) (NavigationItem.order c)),
           (Z.eqb_spec (NavigationItem.order a) (NavigationItem.order c));
    cbn [negb]; try lia.
  apply Htrans.
Qed.

(** C7: when [localeCompare] is a consistent comparator, as ECMAScript
    requires of it, then inside every emitted block no earlier item has a
    greater [order] than a later one, and of two items with the same [order]
    the earlier one's [projectName] collates before or with the later one's. *)
Theorem items_sorted (categories : list Category.t) (navigationItems : list NavigationItem.t)
    (block : CategoryBlock.t) (i j : nat) (x y : NavigationItem.t) :
  (forall s t, 0 < localeCompare s t -> localeCompare t s <= 0) ->
  (forall s t u, localeCompare s t <= 0 -> localeCompare t u <= 0 -> localeCompare s u <= 0) ->
  In block (groupByCategory localeCompare categories navigationItems) ->
  (i < j)%nat ->
  nth_error (CategoryBlock.items block) i = Some x ->
  nth_error (CategoryBlock.items block) j = Some y ->
  NavigationItem.order x <= NavigationItem.order y
  /\ (NavigationItem.order x = NavigationItem.order y ->
      localeCompare (NavigationItem.projectName x) (NavigationItem.projectName y) <= 0).
Proof.
  intros Htotal Htrans Hin Hij Hi Hj.
  apply group_In in Hin. destruct Hin as [category [_ [_ ->]]].
  cbn [CategoryBlock.items blockOf] in Hi, Hj.
  assert (H : before (compareItems localeCompare) x y).
  { eapply StronglySorted_nth_error; [|exact Hij|exact Hi|exact Hj].
    apply Array_sort_sorted.
    - intros a b. now apply compareItems_total.
    - intros a b c. now apply compareItems_trans. }
  unfold before, compareItems in H.
  destruct (Z.eqb_spec (NavigationItem.order x) (NavigationItem.order y)) as [E|E];
    cbn [negb] in H.
  - split; [lia|]. intros _. exact H.
  - split; [lia|]. intro E'. contradiction.
Qed.

(** C9: every emitted block holds at least one item, and all its items are
    enabled. *)
Theorem blocks_nonempty_enabled (categories : list Category.t)
    (navigationItems : list NavigationItem.t) :
  Forall (fun block =>
            CategoryBlock.items block <> []
            /\ Forall (fun item => NavigationItem.enabled item = true)
                      (CategoryBlock.items block))
         (groupByCategory localeCompare categories navigationItems).
Proof.
  apply Forall_forall. intros block Hin.
  apply group_In in Hin. destruct Hin as [category [_ [Hne ->]]]. split.
  - cbn. intro E. apply Hne.
    apply length_zero_iff_nil. rewrite <- (Array_sort_length (compareItems localeCompare)).
    now rewrite E.
  - apply Forall_forall. intros item Hitem.
    apply block_items_In in Hitem. tauto.
Qed.
End GroupFacts.

Lemma codeUnitCompare_total (s t : string) :
  0 < codeUnitCompare s t -> codeUnitCompare t s <= 0.
Proof.
  unfold codeUnitCompare.
  destruct (String_as_OT.compare_spec s t) as [E|L|L]; try lia.
  intros _. unfold String_as_OT.lt in L. now rewrite L.
Qed.

Lemma codeUnitCompare_trans (s t u : string) :
  codeUnitCompare s t <= 0 -> codeUnitCompare t u <= 0 -> codeUnitCompare s u <= 0.
Proof.
  unfold codeUnitCompare.
  destruct (String_as_OT.compare_spec s t) as [E1|L1|L1]; [|intros _|lia].
  - unfold String_as_OT.eq in E1. subst. intros _ H. exact H.
  - destruct (String_as_OT.compare_spec t u) as [E2|L2|L2]; [| |lia]; intros _.
    + unfold String_as_OT.eq in E2. subst. unfold String_as_OT.lt in L1. rewrite L1. lia.
    + assert (L : String_as_OT.lt s u) by (etransitivity; eassumption).
      unfold String_as_OT.lt in L. rewrite L. lia.
Qed.

Lemma items_sorted_witness :
  1 <= 1 /\ (1 = 1 -> codeUnitCompare "Service" "Website" <= 0).
Proof.
  refine (items_sorted codeUnitCompare [category_infra] sample_items
            (blockOf codeUnitCompare sample_items category_infra) 0 1
            (navigationItem project_svc env_svc_prod)
            (navigationItem project_web env_web_prod) _ _ _ _ _ _).
  - exact codeUnitCompare_total.
  - exact codeUnitCompare_trans.
  - left. reflexivity.
  - lia.
  - reflexivity.
  - reflexivity.
Defined.




(** The worked example: one category, one project, its production and test
    env records; and the same with the test record disabled. *)
Theorem build_example (localeCompare : string -> string -> Z) :
  groupByCategory localeCompare [category_infra]
    (expandNavigationItems [project_svc] [env_svc_prod; env_svc_test])
  = [ {| CategoryBlock.category := category_infra;
         CategoryBlock.items := [navigationItem project_svc env_svc_prod;
                                 navigationItem project_svc env_svc_test] |} ]
  /\ map NavigationItem.id
         (expandNavigationItems [project_svc] [env_svc_prod; env_svc_test])
     = ["svc-prod"; "svc-test"]%string
  /\ map NavigationItem.order
         (expandNavigationItems [project_svc] [env_svc_prod; env_svc_test])
     = [1; 3]
  /\ groupByCategory localeCompare [category_infra]
       (expandNavigationItems [project_svc] [env_svc_prod; env_svc_test_off])
     = [ {| CategoryBlock.category := category_infra;
            CategoryBlock.items := [navigationItem project_svc env_svc_prod] |} ].
Proof. repeat split. Qed.

Lemma group_category_ids_NoDup (localeCompare : string -> string -> Z)
    (categories : list Category.t) (navigationItems : list NavigationItem.t) :
  NoDup (map Category.id categories) ->
  NoDup (map (fun block => Category.id (CategoryBlock.category block))
             (groupByCategory localeCompare categories navigationItems)).
Proof.
  intro Hnd. unfold groupByCategory.
  eapply Permutation_NoDup.
  - apply Permutation_map, Array_sort_perm.
  - rewrite group_unsorted, map_map. cbn [CategoryBlock.category blockOf].
    now apply NoDup_map_filter.
Qed.

(** C10: when the category ids are pairwise distinct, an enabled item whose
    [categoryId] is the id of a category stands in the block of that category
    and in no other block, and a block holds nothing but the enabled items
    that carry the id of its category. *)
Theorem blocks_partition (localeCompare : string -> string -> Z)
    (categories : list Category.t) (navigationItems : list NavigationItem.t) :
  NoDup (map Category.id categories) ->
  (forall item category,
     In item navigationItems ->
     NavigationItem.enabled item = true ->
     In category categories ->
     NavigationItem.categoryId item = Category.id category ->
     exists i block,
       nth_error (groupByCategory localeCompare categories navigationItems) i = Some block
       /\ CategoryBlock.category block = category
       /\ In item (CategoryBlock.items block)
       /\ forall j block',
            nth_error (groupByCategory localeCompare categories navigationItems) j
              = Some block' ->
            In item (CategoryBlock.items block') -> j = i)
  /\ (forall block item,
        In block (groupByCategory localeCompare categories navigationItems) ->
        In item (CategoryBlock.items block) ->
        In item navigationItems
        /\ NavigationItem.enabled item = true
        /\ NavigationItem.categoryId item = Category.id (CategoryBlock.category block)
        /\ In (CategoryBlock.category block) categories)
  /\ (forall block,
        In block (groupByCategory localeCompare categories navigationItems) ->
        Permutation (CategoryBlock.items block)
                    (filter (fun item =>
                               String.eqb (NavigationItem.categoryId item)
                                          (Category.id (CategoryBlock.category block))
                               && NavigationItem.enabled item)
                            navigationItems)).
Proof.
  intro Hnd. split; [|split].
  - intros item category Hitem Hen Hcat Hid.
    assert (Hin : In item (CategoryBlock.items (blockOf localeCompare navigationItems category)))
      by (apply block_items_In; auto).
    assert (Hblock : In (blockOf localeCompare navigationItems category)
                        (groupByCategory localeCompare categories navigationItems)).
    { apply group_In. exists category. repeat split; try assumption.
      intro E. cbn in Hin. rewrite Array_sort_In, E in Hin. exact Hin. }
    destruct (In_nth_error _ _ Hblock) as [i Hi].
    exists i, (blockOf localeCompare navigationItems category).
    repeat split; try assumption.
    intros j block' Hj Hin'.
    pose proof (nth_error_In _ _ Hj) as Hb'.
    apply group_In in Hb'. destruct Hb' as [c' [_ [_ ->]]].
    apply block_items_In in Hin'. destruct Hin' as [_ [Hid' _]].
    apply (NoDup_nth_error_eq
             (map (fun block => Category.id (CategoryBlock.category block))
                  (groupByCategory localeCompare categories navigationItems))
             j i (Category.id category)).
    + now apply group_category_ids_NoDup.
    + rewrite nth_error_map, Hj. cbn. congruence.
    + rewrite nth_error_map, Hi. reflexivity.
  - intros block item Hblock Hin.
    apply group_In in Hblock. destruct Hblock as [c [Hc [_ ->]]].
    apply block_items_In in Hin. cbn. tauto.
  - intros block Hblock.
    apply group_In in Hblock. destruct Hblock as [c [_ [_ ->]]].
    cbn. apply Permutation_sym. apply (Array_sort_perm (compareItems localeCompare)).
Qed.

Lemma blocks_partition_witness :
  exists i block,
    nth_error (groupByCategory codeUnitCompare [category_infra; category_misc] sample_items) i
      = Some block
    /\ CategoryBlock.category block = category_infra
    /\ In (navigationItem project_svc env_svc_test) (CategoryBlock.items block)
    /\ forall j block',
         nth_error (groupByCategory codeUnitCompare [category_infra; category_misc] sample_items) j
           = Some block' ->
         In (navigationItem project_svc env_svc_test) (CategoryBlock.items block') -> j = i.
Proof.
  refine (proj1 (blocks_partition codeUnitCompare [category_infra; category_misc]
                   sample_items _)
            (navigationItem project_svc env_svc_test) category_infra _ _ _ _).
  - repeat constructor; simpl; intuition discriminate.
  - left. reflexivity.
  - reflexivity.
  - left. reflexivity.
  - reflexivity.
Defined.

(** ** [validate.ts]: what the checks report *)

(** C1 fails on the code for the three uniqueness checks that print
    [duplicateIds] and [duplicateNames] as they are: an id or name carried by
    three records is named twice. *)
Theorem duplicates_named_per_occurrence (host : Host) :
  validateCategories host categories_aaa =
    {| valid := false; errors := ["Duplicate category IDs: a, a"]%string |}
  /\ validateProjects host projects_ppp =
       {| valid := false;
          errors := ["Duplicate project IDs: p, p";
                     "Duplicate project names: P, P"]%string |}.
Proof. split; reflexivity. Qed.

Lemma nonempty_filter_existsb {A : Type} (f : A -> bool) (l : list A) :
  (0 <? List.length (filter f l))%nat = existsb f l.
Proof.
  induction l as [|x r IH]; [reflexivity|].
  simpl. destruct (f x); [reflexivity|exact IH].
Qed.

Lemma main_errors_loaded (host : Host) (categories projects projectEnvs links : JsVal)
    (categoryIds projectIds foreignKeys : list JsVal) :
  mapProp "id" categories = Normal categoryIds ->
  mapProp "id" projects = Normal projectIds ->
  mapProp "categoryId" projects = Normal foreignKeys ->
  main_errors host (mkFiles (Normal categories) (Normal projects)
                            (Normal projectEnvs) (Normal links)) =
  (errorsOf (validateCategories host categories)
   ++ errorsOf (validateProjects host projects)
   ++ errorsOf (validateProjectEnvs host projectEnvs categoryIds projectIds)
   ++ errorsOf (validateLinks host links categoryIds)
   ++ (if existsb (fun id => negb (includes categoryIds id)) foreignKeys
       then ["Projects reference non-existent categoryIds: "
             ++ joinValues ", "
                  (Set_spread sameValueZero
                     (filter (fun id => negb (includes categoryIds id)) foreignKeys))]%string
       else []))%list.
Proof.
  intros H1 H2 H3.
  unfold main_errors, main_try, projectForeignKeys, bind, lift, collect, errorsOf.
  cbn [categories_yaml projects_yaml project_envs_yaml links_yaml].
  rewrite H1, H2, H3, nonempty_filter_existsb.
  generalize (validateCategories host categories) (validateProjects host projects)
    (validateProjectEnvs host projectEnvs categoryIds projectIds)
    (validateLinks host links categoryIds).
  intros r1 r2 r3 r4.
  destruct (valid r1), (valid r2), (valid r3), (valid r4),
    (existsb (fun id => negb (includes categoryIds id)) foreignKeys);
    cbn [negb]; unfold push, ret; cbn [app];
    rewrite ?app_nil_r, <- ?app_assoc; reflexivity.
Qed.


(** C3, as the code has it: no exception leaves [main]; it exits with 0 and
    no error or with 1 and at least one; a load failure is caught and folded
    into the same error list, as its only entry, with exit code 1. *)
Theorem load_failure_folded (host : Host) (files : DataFiles) :
  (exists code allErrors,
     main host files = Exit code allErrors
     /\ ((code = 0 /\ allErrors = []) \/ (code = 1 /\ allErrors <> [])))
  /\ (forall e,
        firstLoadFailure files = Some e ->
        main host files =
          Exit 1 ["Failed to read data files: " ++ errorToString host e]%string).
Proof.
  split.
  - unfold main. destruct (main_errors host files) as [|x r].
    + exists 0, []. split; [reflexivity|]. left. auto.
    + exists 1, (x :: r). split; [reflexivity|]. right. split; [reflexivity|discriminate].
  - intros e H. unfold firstLoadFailure in H.
    unfold main, main_errors, main_try, bind, lift.
    destruct (categories_yaml files); [|injection H as <-; reflexivity].
    destruct (projects_yaml files); [|injection H as <-; reflexivity].
    destruct (project_envs_yaml files); [|injection H as <-; reflexivity].
    destruct (links_yaml files); [discriminate|injection H as <-; reflexivity].
Qed.

Lemma load_failure_folded_witness :
  main sampleHost files_missing_projects =
    Exit 1 ["Failed to read data files: Error: ENOENT: no such file or directory, open 'data/projects.yaml'"]%string.
Proof.
  refine (proj2 (load_failure_folded sampleHost files_missing_projects)
            (LoadFailure
               "Error: ENOENT: no such file or directory, open 'data/projects.yaml'") _).
  reflexivity.
Defined.

(** C3 as stated fails: with an unreadable file [main] ends as it does on a
    validation violation, by exit code 1 and a list of errors, not by an
    exception. *)
Lemma load_failure_counterexample :
  main sampleHost files_missing_projects =
    Exit 1 ["Failed to read data files: Error: ENOENT: no such file or directory, open 'data/projects.yaml'"]%string
  /\ main sampleHost files_unnamed_project =
       Exit 1 ["Project validation error: 0.name - String must contain at least 1 character(s)";
               "Projects reference non-existent categoryIds: ghost"]%string.
Proof. split; reflexivity. Qed.

(** ** The duplicate filter and the [Set] *)

Lemma existsb_eqb_In (x : string) (l : list string) :
  existsb (String.eqb x) l = true <-> In x l.
Proof.
  rewrite existsb_exists. split.
  - intros [y [Hy E]]. apply String.eqb_eq in E. now subst.
  - intro H. exists x. split; [exact H|apply String.eqb_refl].
Qed.

Lemma indexOf_from_first (x : string) (pre r : list string) (i : Z) :
  ~ In x pre ->
  indexOf_from String.eqb x (pre ++ x :: r) i = i + Z.of_nat (List.length pre).
Proof.
  revert i. induction pre as [|y pre IH]; intros i Hnotin.
  - cbn. rewrite String.eqb_refl. lia.
  - cbn [app indexOf_from List.length].
    destruct (String.eqb_spec y x) as [E|E].
    + exfalso. apply Hnotin. now left.
    + rewrite IH by (intro H; apply Hnotin; now right). lia.
Qed.

Lemma indexOf_from_earlier (x : string) (pre r : list string) (i : Z) :
  In x pre ->
  indexOf_from String.eqb x (pre ++ r) i < i + Z.of_nat (List.length pre).
Proof.
  revert i. induction pre as [|y pre IH]; intros i Hin; [contradiction|].
  cbn [app indexOf_from List.length].
  destruct (String.eqb_spec y x) as [E|E]; [lia|].
  destruct Hin as [Hin|Hin]; [contradiction|].
  specialize (IH (i + 1) Hin). lia.
Qed.

Lemma filter_index_from_seenBefore (l pre suf : list string) :
  l = (pre ++ suf)%list ->
  filter_index_from (fun x index => negb (indexOf String.eqb l x =? index)) suf
                    (Z.of_nat (List.length pre))
  = seenBefore pre suf.
Proof.
  revert pre. induction suf as [|x r IH]; intros pre ->; [reflexivity|].
  cbn [filter_index_from seenBefore].
  assert (Hnext : filter_index_from
                    (fun x0 index => negb (indexOf String.eqb (pre ++ x :: r) x0 =? index))
                    r (Z.of_nat (List.length pre) + 1)
                  = seenBefore (pre ++ [x]) r).
  { replace (Z.of_nat (List.length pre) + 1) with (Z.of_nat (List.length (pre ++ [x])))
      by (rewrite length_app; cbn; lia).
    apply IH. now rewrite <- app_assoc. }
  rewrite Hnext. unfold indexOf.
  destruct (existsb (String.eqb x) pre) eqn:E.
  - apply existsb_eqb_In in E.
    pose proof (indexOf_from_earlier x pre (x :: r) 0 E) as H.
    destruct (Z.eqb_spec (indexOf_from String.eqb x (pre ++ x :: r) 0)
                         (Z.of_nat (List.length pre))); [lia|reflexivity].
  - rewrite indexOf_from_first, Z.eqb_refl; [reflexivity|].
    intro H. apply existsb_eqb_In in H. congruence.
Qed.

Lemma laterOccurrences_seenBefore (l : list string) :
  laterOccurrences l = seenBefore [] l.
Proof. apply (filter_index_from_seenBefore l [] l). reflexivity. Qed.

Lemma seenBefore_count (x : string) (pre suf : list string) :
  count_occ string_dec (seenBefore pre suf) x =
  if existsb (String.eqb x) pre then count_occ string_dec suf x
  else (count_occ string_dec suf x - 1)%nat.
Proof.
  revert pre. induction suf as [|y r IH]; intro pre.
  - cbn. now destruct (existsb (String.eqb x) pre).
  - cbn [seenBefore].
    assert (Hpre : existsb (String.eqb x) (pre ++ [y])
                   = existsb (String.eqb x) pre || String.eqb x y).
    { rewrite existsb_app. cbn. now rewrite orb_false_r. }
    destruct (existsb (String.eqb y) pre) eqn:Ey;
      cbn [count_occ]; rewrite IH, Hpre;
      destruct (string_dec y x) as [->|Hne].
    + rewrite Ey. reflexivity.
    + destruct (String.eqb_spec x y); [congruence|]. now rewrite orb_false_r.
    + rewrite Ey, String.eqb_refl. cbn. lia.
    + destruct (String.eqb_spec x y); [congruence|]. now rewrite orb_false_r.
Qed.

(** The duplicate filter lists a value once for each of its occurrences but
    the first. *)
Lemma laterOccurrences_count (l : list string) (x : string) :
  count_occ string_dec (laterOccurrences l) x = (count_occ string_dec l x - 1)%nat.
Proof. rewrite laterOccurrences_seenBefore. apply seenBefore_count. Qed.

Lemma laterOccurrences_In (l : list string) (x : string) :
  In x (laterOccurrences l) <-> (2 <= count_occ string_dec l x)%nat.
Proof.
  rewrite (count_occ_In string_dec), laterOccurrences_count. lia.
Qed.

Lemma Set_add_all_strings (seen l : list string) :
  NoDup seen ->
  NoDup (Set_add_all String.eqb seen l)
  /\ forall x, In x (Set_add_all String.eqb seen l) <-> In x seen \/ In x l.
Proof.
  revert seen. induction l as [|y r IH]; intros seen Hnd.
  - cbn. split; [exact Hnd|]. intro x. tauto.
  - cbn [Set_add_all]. destruct (existsb (String.eqb y) seen) eqn:E.
    + destruct (IH seen Hnd) as [H1 H2]. split; [exact H1|].
      intro x. rewrite H2. apply existsb_eqb_In in E. cbn.
      split; [tauto|]. intros [H|[<-|H]]; tauto.
    + assert (Hnd' : NoDup (seen ++ [y])).
      { apply NoDup_app; [exact Hnd|repeat constructor; tauto|].
        intros a Ha [<-|[]]. apply existsb_eqb_In in Ha. congruence. }
      destruct (IH _ Hnd') as [H1 H2]. split; [exact H1|].
      intro x. rewrite H2, in_app_iff. cbn. tauto.
Qed.

Lemma Set_spread_strings (l : list string) :
  NoDup (Set_spread String.eqb l)
  /\ forall x, In x (Set_spread String.eqb l) <-> In x l.
Proof.
  destruct (Set_add_all_strings [] l (NoDup_nil _)) as [H1 H2].
  split; [exact H1|]. intro x. rewrite H2. cbn. tauto.
Qed.

Lemma Set_spread_nonempty (l : list string) :
  (0 <? List.length l)%nat = true ->
  match Set_spread String.eqb l with [] => False | _ :: _ => True end.
Proof.
  destruct l as [|x r]; [discriminate|]. intros _.
  destruct (Set_spread_strings (x :: r)) as [_ H].
  destruct (Set_spread String.eqb (x :: r)); [|exact I].
  apply (H x). now left.
Qed.

(** The two checks of [validateProjectEnvs] print distinct values: each
    unknown [projectId] once, and each composite key carried by two or more
    env records once. *)
Theorem projectEnv_checks_distinct (host : Host) (envs : JsVal)
    (categoryIds projectIds : list JsVal) (data : list ProjectEnv.t) :
  safeParse (z_array host (ProjectEnvSchema host)) envs = Success data ->
  exists missing duplicated,
    NoDup missing
    /\ (forall id, In id missing <->
                   In id (map ProjectEnv.projectId data)
                   /\ includes projectIds (JStr id) = false)
    /\ NoDup duplicated
    /\ (forall key, In key duplicated <->
                    (2 <= count_occ string_dec (combinations data) key)%nat)
    /\ errors (validateProjectEnvs host envs categoryIds projectIds) =
         (match missing with
          | [] => []
          | _ => ["ProjectEnv references non-existent projectIds: "
                  ++ join ", " missing]%string
          end
          ++ match duplicated with
             | [] => []
             | _ => ["Duplicate projectId-env combinations: "
                     ++ join ", " duplicated]%string
             end)%list.
Proof.
  intro H.
  exists (Set_spread String.eqb (invalidProjectIds data projectIds)),
         (Set_spread String.eqb (laterOccurrences (combinations data))).
  destruct (Set_spread_strings (invalidProjectIds data projectIds)) as [N1 I1].
  destruct (Set_spread_strings (laterOccurrences (combinations data))) as [N2 I2].
  split; [exact N1|]. split; [|split; [exact N2|split]].
  - intro id. rewrite I1. unfold invalidProjectIds.
    rewrite filter_In, negb_true_iff. tauto.
  - intro key. rewrite I2. apply laterOccurrences_In.
  - unfold validateProjectEnvs. rewrite H. cbn [errors].
    f_equal.
    + pose proof (Set_spread_nonempty (invalidProjectIds data projectIds)) as Hne.
      destruct (0 <? List.length (invalidProjectIds data projectIds))%nat eqn:E.
      * specialize (Hne eq_refl).
        now destruct (Set_spread String.eqb (invalidProjectIds data projectIds)).
      * destruct (invalidProjectIds data projectIds); [reflexivity|discriminate].
    + pose proof (Set_spread_nonempty (laterOccurrences (combinations data))) as Hne.
      destruct (0 <? List.length (laterOccurrences (combinations data)))%nat eqn:E.
      * specialize (Hne eq_refl).
        now destruct (Set_spread String.eqb (laterOccurrences (combinations data))).
      * destruct (laterOccurrences (combinations data)); [reflexivity|discriminate].
Qed.

Lemma projectEnv_checks_distinct_witness :
  validateProjectEnvs sampleHost envs_ghost [] [JStr "svc"] =
    {| valid := false;
       errors := ["ProjectEnv references non-existent projectIds: ghost";
                  "Duplicate projectId-env combinations: ghost-prod"]%string |}
  /\ exists missing duplicated,
       NoDup missing /\ NoDup duplicated
       /\ errors (validateProjectEnvs sampleHost envs_ghost [] [JStr "svc"]) =
            (match missing with
             | [] => []
             | _ => ["ProjectEnv references non-existent projectIds: "
                     ++ join ", " missing]%string
             end
             ++ match duplicated with
                | [] => []
                | _ => ["Duplicate projectId-env combinations: "
                        ++ join ", " duplicated]%string
                end)%list.
Proof.
  split; [reflexivity|].
  destruct (projectEnv_checks_distinct sampleHost envs_ghost [] [JStr "svc"]
              [ProjectEnv.mk "ghost" prod "https://g.example.com" None true;
               ProjectEnv.mk "ghost" prod "https://g.example.com" None true;
               ProjectEnv.mk "ghost" prod "https://g.example.com" None true]
              eq_refl)
    as [missing [duplicated [H1 [_ [H2 [_ H3]]]]]].
  exists missing, duplicated. auto.
Defined.

(** ** The Zod schemas *)

Lemma ap_issues {A B : Type} (f : SafeParse (A -> B)) (x : SafeParse A) :
  issuesOf (f <*> x) = (issuesOf f ++ issuesOf x)%list.
Proof.
  destruct f as [g|e1], x as [a|e2]; cbn; try reflexivity.
  now rewrite app_nil_r.
Qed.

Lemma ap_Success_inv {A B : Type} (f : SafeParse (A -> B)) (x : SafeParse A) (b : B) :
  f <*> x = Success b -> exists g a, f = Success g /\ x = Success a /\ b = g a.
Proof.
  destruct f as [g|e1], x as [a|e2]; cbn; intro H; try discriminate.
  injection H as <-. now exists g, a.
Qed.

Lemma ap_reports {A B : Type} (f : SafeParse (A -> B)) (x : SafeParse A) :
  f <> Failure [] -> x <> Failure [] -> f <*> x <> Failure [].
Proof.
  destruct f as [g|e1], x as [a|e2]; cbn; intros Hf Hx H; try discriminate;
    injection H as H.
  - now subst.
  - now subst.
  - apply app_eq_nil in H. destruct H as [-> _]. now apply Hf.
Qed.

Lemma z_array_from_issues {A : Type} (s : Schema A) (p : list string)
    (l : list JsVal) (i : nat) :
  issuesOf (z_array_from s p l i) = elementIssues s p l i.
Proof.
  revert i. induction l as [|x r IH]; intro i; [reflexivity|].
  cbn [z_array_from elementIssues]. rewrite !ap_issues, IH. reflexivity.
Qed.

Lemma z_array_from_Success {A : Type} (s : Schema A) (p : list string)
    (l : list JsVal) (i : nat) (data : list A) :
  z_array_from s p l i = Success data <->
  Forall2 (fun kx d => s (p ++ [indexToString (fst kx)])%list (snd kx) = Success d)
          (combine (seq i (List.length l)) l) data.
Proof.
  revert i data. induction l as [|x r IH]; intros i data.
  - cbn. split.
    + intro H. injection H as <-. constructor.
    + intro H. now inversion H.
  - cbn [z_array_from List.length seq combine]. split.
    + intro H. apply ap_Success_inv in H. destruct H as [g [ds [Hg [Hr ->]]]].
      apply ap_Success_inv in Hg. destruct Hg as [c [d [Hc [Hd ->]]]].
      injection Hc as <-. constructor; [exact Hd|]. now apply IH.
    + intro H. inversion H as [|? d ? ds Hd Hr]; subst.
      cbn [fst snd] in Hd. rewrite Hd. apply IH in Hr. rewrite Hr. reflexivity.
Qed.

Lemma z_array_from_reports {A : Type} (s : Schema A) (p : list string)
    (l : list JsVal) (i : nat) :
  reportsIssues s -> z_array_from s p l i <> Failure [].
Proof.
  intro Hs. revert i. induction l as [|x r IH]; intro i; [discriminate|].
  cbn [z_array_from]. apply ap_reports; [apply ap_reports|]; [discriminate|apply Hs|apply IH].
Qed.

Lemma z_array_reports (host : Host) {A : Type} (s : Schema A) :
  reportsIssues s -> reportsIssues (z_array host s).
Proof.
  intros Hs p v. destruct v; try discriminate.
  cbn. now apply z_array_from_reports.
Qed.

Lemma combine_seq_nth_error {A : Type} (l : list A) (i k : nat) (x : A) :
  nth_error l k = Some x ->
  nth_error (combine (seq i (List.length l)) l) k = Some ((i + k)%nat, x).
Proof.
  revert i k. induction l as [|y r IH]; intros i k H; [destruct k; discriminate|].
  destruct k as [|k]; cbn in *.
  - injection H as <-. now rewrite Nat.add_0_r.
  - rewrite (IH (S i) k H). f_equal. f_equal. lia.
Qed.

Lemma Forall2_nth_error_left {A B : Type} (R : A -> B -> Prop) (l : list A) (l' : list B)
    (k : nat) (x : A) :
  Forall2 R l l' -> nth_error l k = Some x ->
  exists y, nth_error l' k = Some y /\ R x y.
Proof.
  intro H. revert k. induction H as [|a b l l' Hab _ IH]; intros k Hk.
  - destruct k; discriminate.
  - destruct k as [|k]; cbn in *.
    + injection Hk as <-. now exists b.
    + now apply IH.
Qed.

(** The array schema checks every element under its own index and collects
    the issues of all of them, in order; it succeeds exactly when every
    element does, with one parsed record per element. *)
Theorem array_schema_checks_every_element (host : Host) {A : Type} (s : Schema A)
    (p : list string) (elems : list JsVal) :
  issuesOf (z_array host s p (JArr elems)) = elementIssues s p elems 0
  /\ (forall data,
        z_array host s p (JArr elems) = Success data ->
        List.length data = List.length elems
        /\ forall k x, nth_error elems k = Some x ->
             exists d, nth_error data k = Some d
                       /\ s (p ++ [indexToString k])%list x = Success d)
  /\ ((forall k x, nth_error elems k = Some x ->
         exists d, s (p ++ [indexToString k])%list x = Success d) ->
      exists data, z_array host s p (JArr elems) = Success data).
Proof.
  cbn [z_array]. split; [apply z_array_from_issues|]. split.
  - intros data H. apply z_array_from_Success in H.
    pose proof (Forall2_length H) as Hlen.
    rewrite length_combine, length_seq, Nat.min_id in Hlen.
    split; [now symmetry|].
    intros k x Hk.
    pose proof (combine_seq_nth_error elems 0 k x Hk) as Hc.
    destruct (Forall2_nth_error_left _ _ _ _ _ H Hc) as [d [Hd Hs]]. cbn in Hs.
    now exists d.
  - intro H.
    assert (G : forall j, (forall k x, nth_error elems k = Some x ->
                             exists d, s (p ++ [indexToString (j + k)])%list x = Success d) ->
                          exists data, z_array_from s p elems j = Success data).
    { clear H. induction elems as [|x r IH]; intros j Hj.
      - now exists [].
      - destruct (Hj 0%nat x eq_refl) as [d Hd]. rewrite Nat.add_0_r in Hd.
        destruct (IH (S j)) as [ds Hds].
        { intros k y Hk. destruct (Hj (S k) y Hk) as [d' Hd'].
          exists d'. now replace (S j + k)%nat with (j + S k)%nat by lia. }
        exists (d :: ds). cbn [z_array_from]. now rewrite Hd, Hds. }
    apply (G 0%nat). exact H.
Qed.

Section SchemaFacts.
Variable host : Host.

Lemma nonempty_length (s : string) : (1 <=? String.length s)%nat = true <-> s <> "".
Proof. destruct s; cbn; split; intro H; congruence. Qed.

Lemma z_string_min1_Success (p : list string) (v : JsVal) (s : string) :
  z_string_min1 host p v = Success s <-> v = JStr s /\ s <> "".
Proof.
  unfold z_string_min1. destruct v; try (split; [discriminate|intros [H _]; discriminate]).
  destruct (1 <=? String.length s0)%nat eqn:E.
  - apply nonempty_length in E. split.
    + intro H. injection H as <-. auto.
    + intros [H _]. injection H as <-. reflexivity.
  - split; [discriminate|]. intros [H Hne]. injection H as <-.
    apply nonempty_length in Hne. congruence.
Qed.

Lemma z_string_Success (p : list string) (v : JsVal) (s : string) :
  z_string host p v = Success s <-> v = JStr s.
Proof.
  unfold z_string. destruct v; try (split; discriminate).
  split; intro H; injection H as <-; reflexivity.
Qed.

Lemma z_string_url_Success (p : list string) (v : JsVal) (s : string) :
  z_string_url host p v = Success s <-> v = JStr s /\ isUrl host s = true.
Proof.
  unfold z_string_url. destruct v; try (split; [discriminate|intros [H _]; discriminate]).
  destruct (isUrl host s0) eqn:E.
  - split.
    + intro H. injection H as <-. auto.
    + intros [H _]. injection H as <-. reflexivity.
  - split; [discriminate|]. intros [H Hu]. injection H as <-. congruence.
Qed.

Lemma z_number_int_min0_Success (p : list string) (v : JsVal) (n : Z) :
  z_number_int_min0 host p v = Success n <-> v = JNum n /\ 0 <= n.
Proof.
  unfold z_number_int_min0. destruct v; try (split; [discriminate|intros [H _]; discriminate]).
  destruct (Z.leb_spec 0 n0) as [Hle|Hlt].
  - split.
    + intro H. injection H as <-. auto.
    + intros [H _]. injection H as <-. reflexivity.
  - split; [discriminate|]. intros [H Hn]. injection H as <-. lia.
Qed.

Lemma z_boolean_Success (p : list string) (v : JsVal) (b : bool) :
  z_boolean host p v = Success b <-> v = JBool b.
Proof.
  unfold z_boolean. destruct v; try (split; discriminate).
  split; intro H; injection H as <-; reflexivity.
Qed.

Lemma optional_string_Success (p : list string) (v : JsVal) (o : option string) :
  z_optional (z_string host) p v = Success o <-> optionalString v o.
Proof.
  unfold z_optional, z_string, optionalString.
  destruct v, o; split; intro H; try discriminate; try reflexivity;
    try (injection H as <-; reflexivity).
Qed.

Lemma optional_order_Success (p : list string) (v : JsVal) (o : option Z) :
  z_optional (z_number_int_min0 host) p v = Success o <-> optionalOrder v o.
Proof.
  unfold z_optional, optionalOrder.
  destruct v as [| | |n| | |], o as [m|]; cbn;
    try (split; intro H; try discriminate; try reflexivity;
         apply proj1 in H; discriminate).
  - destruct (Z.leb_spec 0 n) as [Hle|Hlt]; split; intro H; try discriminate.
    + injection H as <-. auto.
    + destruct H as [H _]. injection H as <-. reflexivity.
    + destruct H as [H Hn]. injection H as <-. lia.
  - destruct (0 <=? n); split; discriminate.
Qed.

Lemma boolean_default_Success (d : bool) (p : list string) (v : JsVal) (b : bool) :
  z_default (z_boolean host) d p v = Success b <-> booleanOr d v b.
Proof.
  unfold z_default, z_boolean, booleanOr.
  destruct v; split; intro H; try discriminate;
    try (destruct H as [[H _]|H]; discriminate).
  - injection H as <-. auto.
  - destruct H as [[_ ->]|H]; [reflexivity|discriminate].
  - injection H as <-. auto.
  - destruct H as [[H _]|H]; [discriminate|]. injection H as <-. reflexivity.
Qed.

Lemma EnvTypeSchema_Success (p : list string) (v : JsVal) (e : EnvType) :
  EnvTypeSchema host p v = Success e <-> v = JStr (EnvType_str e).
Proof.
  unfold EnvTypeSchema. destruct v; try (split; discriminate).
  split.
  - destruct (find (fun e0 => String.eqb (EnvType_str e0) s) EnvType_values) eqn:E;
      [|discriminate].
    intro H. injection H as <-. apply find_some in E. destruct E as [_ E].
    apply String.eqb_eq in E. now subst.
  - intro H. injection H as ->. now destruct e.
Qed.

Ltac invert_ap H :=
  repeat (let g := fresh "g" in
          let a := fresh "a" in
          let Ha := fresh "Ha" in
          apply ap_Success_inv in H; destruct H as (g & a & H & Ha & ->)).

Ltac invert_fields :=
  unfold field in *;
  repeat match goal with
         | H : z_string_min1 _ _ _ = Success _ |- _ => apply z_string_min1_Success in H
         | H : z_string_url _ _ _ = Success _ |- _ => apply z_string_url_Success in H
         | H : z_optional (z_string _) _ _ = Success _ |- _ =>
             apply optional_string_Success in H
         | H : z_optional (z_number_int_min0 _) _ _ = Success _ |- _ =>
             apply optional_order_Success in H
         | H : z_default (z_boolean _) _ _ _ = Success _ |- _ =>
             apply boolean_default_Success in H
         | H : EnvTypeSchema _ _ _ = Success _ |- _ => apply EnvTypeSchema_Success in H
         end.

Ltac accept_fields :=
  unfold field;
  repeat match goal with
         | H : _ /\ _ |- _ => destruct H
         end;
  repeat match goal with
         | |- context [z_string_min1 ?h ?p ?v] =>
             rewrite (proj2 (z_string_min1_Success p v _)) by (split; eassumption)
         | |- context [z_string_url ?h ?p ?v] =>
             rewrite (proj2 (z_string_url_Success p v _)) by (split; eassumption)
         | |- context [z_optional (z_string ?h) ?p ?v] =>
             rewrite (proj2 (optional_string_Success p v _)) by eassumption
         | |- context [z_optional (z_number_int_min0 ?h) ?p ?v] =>
             rewrite (proj2 (optional_order_Success p v _)) by eassumption
         | |- context [z_default (z_boolean ?h) ?d ?p ?v] =>
             rewrite (proj2 (boolean_default_Success d p v _)) by eassumption
         | |- context [EnvTypeSchema ?h ?p ?v] =>
             rewrite (proj2 (EnvTypeSchema_Success p v _)) by eassumption
         end.

Lemma CategorySchema_Success (p : list string) (v : JsVal) (c : Category.t) :
  CategorySchema host p v = Success c <->
  exists fields, v = JObj fields /\ categoryFields fields c.
Proof.
  unfold CategorySchema, z_object, categoryFields. split.
  - destruct v; try discriminate. intro H. invert_ap H.
    injection H as <-. invert_fields. exists fields. cbn. tauto.
  - intros [fields [-> H]]. destruct c. cbn in H. accept_fields. reflexivity.
Qed.

Lemma ProjectSchema_Success (p : list string) (v : JsVal) (x : Project.t) :
  ProjectSchema host p v = Success x <->
  exists fields, v = JObj fields /\ projectFields fields x.
Proof.
  unfold ProjectSchema, z_object, projectFields. split.
  - destruct v; try discriminate. intro H. invert_ap H.
    injection H as <-. invert_fields. exists fields. cbn. tauto.
  - intros [fields [-> H]]. destruct x. cbn in H. accept_fields. reflexivity.
Qed.

Lemma ProjectEnvSchema_Success (p : list string) (v : JsVal) (e : ProjectEnv.t) :
  ProjectEnvSchema host p v = Success e <->
  exists fields, v = JObj fields /\ projectEnvFields host fields e.
Proof.
  unfold ProjectEnvSchema, z_object, projectEnvFields. split.
  - destruct v; try discriminate. intro H. invert_ap H.
    injection H as <-. invert_fields. exists fields. cbn. tauto.
  - intros [fields [-> H]]. destruct e. cbn in H. accept_fields. reflexivity.
Qed.

Lemma LinkSchema_Success (p : list string) (v : JsVal) (l : Link.t) :
  LinkSchema host p v = Success l <->
  exists fields, v = JObj fields /\ linkFields host fields l.
Proof.
  unfold LinkSchema, z_object, linkFields. split.
  - destruct v; try discriminate. intro H. invert_ap H.
    injection H as <-. invert_fields. exists fields. cbn. tauto.
  - intros [fields [-> H]]. destruct l. cbn in H. accept_fields. reflexivity.
Qed.
End SchemaFacts.

Section SchemaReports.
Variable host : Host.

Lemma z_string_min1_reports : reportsIssues (z_string_min1 host).
Proof.
  intros p v. unfold z_string_min1. destruct v; try discriminate.
  destruct (1 <=? String.length s)%nat; discriminate.
Qed.

Lemma z_string_reports : reportsIssues (z_string host).
Proof. intros p v. unfold z_string. destruct v; discriminate. Qed.

Lemma z_string_url_reports : reportsIssues (z_string_url host).
Proof.
  intros p v. unfold z_string_url. destruct v; try discriminate.
  destruct (isUrl host s); discriminate.
Qed.

Lemma z_number_int_min0_reports : reportsIssues (z_number_int_min0 host).
Proof.
  intros p v. unfold z_number_int_min0. destruct v; try discriminate.
  destruct (0 <=? n); discriminate.
Qed.

Lemma z_boolean_reports : reportsIssues (z_boolean host).
Proof. intros p v. unfold z_boolean. destruct v; discriminate. Qed.

Lemma EnvTypeSchema_reports : reportsIssues (EnvTypeSchema host).
Proof.
  intros p v. unfold EnvTypeSchema. destruct v; try discriminate.
  destruct (find (fun e => String.eqb (EnvType_str e) s) EnvType_values); discriminate.
Qed.

Lemma z_optional_reports {A : Type} (s : Schema A) :
  reportsIssues s -> reportsIssues (z_optional s).
Proof.
  intros Hs p v. unfold z_optional.
  pose proof (Hs p v) as H.
  destruct v; try discriminate; destruct (s p _); try discriminate;
    intro E; apply H; injection E as ->; reflexivity.
Qed.

Lemma z_default_reports {A : Type} (s : Schema A) (d : A) :
  reportsIssues s -> reportsIssues (z_default s d).
Proof.
  intros Hs p v. unfold z_default.
  destruct v; try discriminate; apply Hs.
Qed.

Ltac reports_fields :=
  unfold field;
  repeat (apply ap_reports);
  first [ discriminate
        | apply z_string_min1_reports
        | apply z_string_url_reports
        | apply EnvTypeSchema_reports
        | apply z_optional_reports; first [apply z_string_reports
                                          |apply z_number_int_min0_reports]
        | apply z_default_reports; apply z_boolean_reports ].

Lemma CategorySchema_reports : reportsIssues (CategorySchema host).
Proof.
  intros p v. unfold CategorySchema, z_object. destruct v; try discriminate.
  reports_fields.
Qed.

Lemma ProjectSchema_reports : reportsIssues (ProjectSchema host).
Proof.
  intros p v. unfold ProjectSchema, z_object. destruct v; try discriminate.
  reports_fields.
Qed.

Lemma ProjectEnvSchema_reports : reportsIssues (ProjectEnvSchema host).
Proof.
  intros p v. unfold ProjectEnvSchema, z_object. destruct v; try discriminate.
  reports_fields.
Qed.

Lemma LinkSchema_reports : reportsIssues (LinkSchema host).
Proof.
  intros p v. unfold LinkSchema, z_object. destruct v; try discriminate.
  reports_fields.
Qed.
End SchemaReports.

(** What each schema accepts: an object whose named keys hold a non-empty
    string for [id], [name], [projectId] and a project's [categoryId], a
    string the URL parser accepts for [url], one of the three environment
    names for [env], a string or nothing for the optional texts, a
    non-negative integer or nothing for [order], and a boolean or nothing for
    [enabled], which then counts as true; other keys are ignored. *)
Theorem schemas_accept (host : Host) (p : list string) (v : JsVal) :
  (forall c, CategorySchema host p v = Success c <->
             exists fields, v = JObj fields /\ categoryFields fields c)
  /\ (forall x, ProjectSchema host p v = Success x <->
                exists fields, v = JObj fields /\ projectFields fields x)
  /\ (forall e, ProjectEnvSchema host p v = Success e <->
                exists fields, v = JObj fields /\ projectEnvFields host fields e)
  /\ (forall l, LinkSchema host p v = Success l <->
                exists fields, v = JObj fields /\ linkFields host fields l).
Proof.
  repeat split; try apply CategorySchema_Success; try apply ProjectSchema_Success;
    try apply ProjectEnvSchema_Success; try apply LinkSchema_Success.
Qed.

(** The environment enumeration is closed: the schema accepts the strings
    [test], [staging] and [prod] and nothing else, the upper-case names of
    the other type file included. *)
Theorem env_enumeration_closed (host : Host) (p : list string) :
  (forall v e, EnvTypeSchema host p v = Success e <-> v = JStr (EnvType_str e))
  /\ (forall v, (exists e, EnvTypeSchema host p v = Success e) <->
                In v [JStr "test"; JStr "staging"; JStr "prod"]%string)
  /\ Forall (fun name => issuesOf (EnvTypeSchema host p (JStr name)) <> [])
            EnvType_upper_values.
Proof.
  split; [intros v e; apply EnvTypeSchema_Success|]. split.
  - intro v. split.
    + intros [e H]. apply EnvTypeSchema_Success in H. subst.
      destruct e; cbn; auto.
    + intros [<-|[<-|[<-|[]]]]; [exists test|exists staging|exists prod]; reflexivity.
  - repeat constructor; cbn; discriminate.
Qed.

(** ** The validators, on every input *)

Lemma laterOccurrences_nil (l : list string) :
  laterOccurrences l = [] <-> NoDup l.
Proof.
  rewrite (NoDup_count_occ string_dec). split.
  - intros E x. pose proof (laterOccurrences_count l x) as H.
    rewrite E in H. cbn in H. lia.
  - intro H. destruct (laterOccurrences l) as [|x r] eqn:E; [reflexivity|].
    assert (Hin : In x (laterOccurrences l)) by (rewrite E; now left).
    apply laterOccurrences_In in Hin. specialize (H x). lia.
Qed.

Lemma message_if_nonempty {A : Type} (l : list A) (msg : string) :
  (if (0 <? List.length l)%nat then [msg] else []) = [] <-> l = [].
Proof. destruct l; cbn; split; intro H; congruence. Qed.

Lemma length_eqb_nil {A : Type} (l : list A) :
  (List.length l =? 0)%nat = true <-> l = [].
Proof. destruct l; cbn; split; intro H; congruence. Qed.

Lemma NoDup_map_injective {A B : Type} (f : A -> B) (l : list A) :
  (forall x y, f x = f y -> x = y) -> NoDup l -> NoDup (map f l).
Proof.
  intros Hf. induction 1 as [|x r Hnotin _ IH]; cbn; constructor; [|exact IH].
  intro Hin. apply in_map_iff in Hin. destruct Hin as [y [E Hy]].
  apply Hf in E. now subst.
Qed.

Lemma combinations_NoDup (data : list ProjectEnv.t) :
  NoDup (combinations data) <-> NoDup (map envKey data).
Proof.
  assert (E : combinations data
              = map (fun k => fst k ++ "-" ++ EnvType_str (snd k))%string (map envKey data)).
  { unfold combinations. rewrite map_map. reflexivity. }
  rewrite E. split.
  - apply NoDup_map_inv.
  - apply NoDup_map_injective. intros [a e1] [b e2] H. cbn in H.
    apply combination_inj in H. destruct H. now subst.
Qed.

Lemma filter_nil_iff {A : Type} (f : A -> bool) (l : list A) :
  filter f l = [] <-> forall x, In x l -> f x = false.
Proof.
  split.
  - intros E x Hx. destruct (f x) eqn:Ef; [|reflexivity].
    assert (Hin : In x (filter f l)) by (apply filter_In; auto).
    rewrite E in Hin. contradiction.
  - apply filter_none.
Qed.

Lemma validateCategories_valid_iff (host : Host) (categories : JsVal) :
  valid (validateCategories host categories) = true <->
  exists data,
    safeParse (z_array host (CategorySchema host)) categories = Success data
    /\ NoDup (map Category.id data).
Proof.
  unfold validateCategories.
  destruct (safeParse (z_array host (CategorySchema host)) categories) as [data|issues].
  - cbn [valid]. rewrite length_eqb_nil, message_if_nonempty, laterOccurrences_nil.
    split.
    + intro H. now exists data.
    + intros [data' [E H]]. now injection E as <-.
  - cbn. split; [discriminate|]. intros [data [E _]]. discriminate.
Qed.

(** [validateCategories] reports a dataset valid exactly when the schema
    check passes and the ids are pairwise distinct; otherwise, when the
    schema check passed, its one error lists every id once for each record
    that repeats it. *)
Theorem validateCategories_accepts (host : Host) (categories : JsVal) :
  (valid (validateCategories host categories) = true <->
   exists data,
     safeParse (z_array host (CategorySchema host)) categories = Success data
     /\ NoDup (map Category.id data))
  /\ (forall data,
        safeParse (z_array host (CategorySchema host)) categories = Success data ->
        ~ NoDup (map Category.id data) ->
        exists duplicateIds,
          errors (validateCategories host categories)
            = ["Duplicate category IDs: " ++ join ", " duplicateIds]%string
          /\ forall id, count_occ string_dec duplicateIds id
                        = (count_occ string_dec (map Category.id data) id - 1)%nat).
Proof.
  split; [apply validateCategories_valid_iff|].
  unfold validateCategories.
  intros data -> Hdup. exists (laterOccurrences (map Category.id data)).
  split; [|intro id; apply laterOccurrences_count].
  cbn [errors].
  destruct (laterOccurrences (map Category.id data)) eqn:E; [|reflexivity].
  apply laterOccurrences_nil in E. contradiction.
Qed.

Lemma validateProjects_valid_iff (host : Host) (projects : JsVal) :
  valid (validateProjects host projects) = true <->
  exists data,
    safeParse (z_array host (ProjectSchema host)) projects = Success data
    /\ NoDup (map Project.id data) /\ NoDup (map Project.name data).
Proof.
  unfold validateProjects.
  destruct (safeParse (z_array host (ProjectSchema host)) projects) as [data|issues].
  - cbn [valid]. rewrite length_eqb_nil. split.
    + intro H. apply app_eq_nil in H. destruct H as [H1 H2].
      apply message_if_nonempty, laterOccurrences_nil in H1.
      apply message_if_nonempty, laterOccurrences_nil in H2.
      now exists data.
    + intros [data' [E [H1 H2]]]. injection E as <-.
      apply laterOccurrences_nil in H1, H2. now rewrite H1, H2.
  - cbn. split; [discriminate|]. intros [data [E _]]. discriminate.
Qed.

(** [validateProjects] reports a dataset valid exactly when the schema check
    passes and both the ids and the names are pairwise distinct; repeated ids
    and repeated names are reported by errors of their own, the ids first. *)
Theorem validateProjects_accepts (host : Host) (projects : JsVal) :
  (valid (validateProjects host projects) = true <->
   exists data,
     safeParse (z_array host (ProjectSchema host)) projects = Success data
     /\ NoDup (map Project.id data) /\ NoDup (map Project.name data))
  /\ (forall data,
        safeParse (z_array host (ProjectSchema host)) projects = Success data ->
        errors (validateProjects host projects)
        = (match laterOccurrences (map Project.id data) with
           | [] => []
           | ids => ["Duplicate project IDs: " ++ join ", " ids]%string
           end
           ++ match laterOccurrences (map Project.name data) with
              | [] => []
              | names => ["Duplicate project names: " ++ join ", " names]%string
              end)%list).
Proof.
  split; [apply validateProjects_valid_iff|].
  unfold validateProjects. intros data ->. cbn [errors].
  destruct (laterOccurrences (map Project.id data)),
           (laterOccurrences (map Project.name data)); reflexivity.
Qed.

Lemma validateProjectEnvs_valid_iff (host : Host) (envs : JsVal)
    (categoryIds projectIds : list JsVal) :
  valid (validateProjectEnvs host envs categoryIds projectIds) = true <->
  exists data,
    safeParse (z_array host (ProjectEnvSchema host)) envs = Success data
    /\ (forall e, In e data -> includes projectIds (JStr (ProjectEnv.projectId e)) = true)
    /\ NoDup (map envKey data).
Proof.
  unfold validateProjectEnvs.
  destruct (safeParse (z_array host (ProjectEnvSchema host)) envs) as [data|issues].
  - cbn [valid]. rewrite length_eqb_nil.
    assert (Hfk : invalidProjectIds data projectIds = [] <->
                  forall e, In e data ->
                    includes projectIds (JStr (ProjectEnv.projectId e)) = true).
    { unfold invalidProjectIds. rewrite filter_nil_iff. split.
      - intros H e He. apply negb_false_iff, H. now apply in_map.
      - intros H x Hx. apply in_map_iff in Hx. destruct Hx as [e [<- He]].
        apply negb_false_iff. now apply H. }
    split.
    + intro H. apply app_eq_nil in H. destruct H as [H1 H2].
      apply message_if_nonempty in H1. apply message_if_nonempty in H2.
      apply laterOccurrences_nil, combinations_NoDup in H2.
      exists data. split; [reflexivity|]. split; [exact (proj1 Hfk H1)|exact H2].
    + intros [data' [E [H1 H2]]]. injection E as <-.
      rewrite (proj2 Hfk H1).
      apply combinations_NoDup, laterOccurrences_nil in H2.
      now rewrite H2.
  - cbn. split; [discriminate|]. intros [data [E _]]. discriminate.
Qed.

(** [validateProjectEnvs] reports a dataset valid exactly when the schema
    check passes, every [projectId] is among the given project ids and the
    (projectId, env) pairs are pairwise distinct; the category ids it is
    handed play no part. *)
Theorem validateProjectEnvs_accepts (host : Host) (envs : JsVal)
    (categoryIds projectIds : list JsVal) :
  (valid (validateProjectEnvs host envs categoryIds projectIds) = true <->
   exists data,
     safeParse (z_array host (ProjectEnvSchema host)) envs = Success data
     /\ (forall e, In e data -> includes projectIds (JStr (ProjectEnv.projectId e)) = true)
     /\ NoDup (map envKey data))
  /\ (forall categoryIds',
        validateProjectEnvs host envs categoryIds' projectIds
        = validateProjectEnvs host envs categoryIds projectIds).
Proof.
  split; [apply validateProjectEnvs_valid_iff|reflexivity].
Qed.

Lemma validateLinks_valid_iff (host : Host) (links : JsVal) (categoryIds : list JsVal) :
  valid (validateLinks host links categoryIds) = true <->
  exists data,
    safeParse (z_array host (LinkSchema host)) links = Success data
    /\ NoDup (map Link.id data)
    /\ forall l s, In l data -> Link.categoryId l = Some s -> s <> "" ->
                   includes categoryIds (JStr s) = true.
Proof.
  unfold validateLinks.
  destruct (safeParse (z_array host (LinkSchema host)) links) as [data|issues].
  - cbn [valid]. rewrite length_eqb_nil.
    assert (Hfk : filter (fun id => negb (includes categoryIds (JStr id)))
                    (map (fun l => match Link.categoryId l with
                                   | Some s => s
                                   | None => ""
                                   end) (filter hasCategory data)) = [] <->
                  forall l s, In l data -> Link.categoryId l = Some s -> s <> "" ->
                              includes categoryIds (JStr s) = true).
    { rewrite filter_nil_iff. split.
      - intros H l s Hl Hs Hne. apply negb_false_iff. apply H.
        apply in_map_iff. exists l. rewrite Hs. split; [reflexivity|].
        apply filter_In. split; [exact Hl|]. unfold hasCategory. rewrite Hs.
        now apply negb_true_iff, String.eqb_neq.
      - intros H x Hx. apply in_map_iff in Hx. destruct Hx as [l [<- Hl]].
        apply filter_In in Hl. destruct Hl as [Hl Hc]. unfold hasCategory in Hc.
        destruct (Link.categoryId l) as [s|] eqn:Es; [|discriminate].
        apply negb_false_iff. apply (H l s Hl Es).
        now apply String.eqb_neq, negb_true_iff. }
    split.
    + intro H. apply app_eq_nil in H. destruct H as [H1 H2].
      apply message_if_nonempty, laterOccurrences_nil in H1.
      apply message_if_nonempty in H2.
      exists data. split; [reflexivity|]. split; [exact H1|exact (proj1 Hfk H2)].
    + intros [data' [E [H1 H2]]]. injection E as <-.
      apply laterOccurrences_nil in H1.
      now rewrite H1, (proj2 Hfk H2).
  - cbn. split; [discriminate|]. intros [data [E _]]. discriminate.
Qed.

(** [validateLinks] reports a dataset valid exactly when the schema check
    passes, the ids are pairwise distinct and every [categoryId] that is
    present and not the empty string is among the given category ids: a link
    without [categoryId], or with the empty string for it, is never reported
    for its category. *)
Theorem validateLinks_accepts (host : Host) (links : JsVal) (categoryIds : list JsVal) :
  (valid (validateLinks host links categoryIds) = true <->
   exists data,
     safeParse (z_array host (LinkSchema host)) links = Success data
     /\ NoDup (map Link.id data)
     /\ forall l s, In l data -> Link.categoryId l = Some s -> s <> "" ->
                    includes categoryIds (JStr s) = true)
  /\ (forall data,
        safeParse (z_array host (LinkSchema host)) links = Success data ->
        NoDup (map Link.id data) ->
        (forall l, In l data ->
           Link.categoryId l = None \/ Link.categoryId l = Some ""%string) ->
        validateLinks host links categoryIds = {| valid := true; errors := [] |}).
Proof.
  split; [apply validateLinks_valid_iff|].
  intros data E Hnd Hnone.
  assert (Hv : valid (validateLinks host links categoryIds) = true).
  { apply validateLinks_valid_iff. exists data. repeat split; try assumption.
    intros l s Hl Hs Hne. destruct (Hnone l Hl) as [H|H]; congruence. }
  revert Hv. unfold validateLinks. rewrite E. cbn [valid].
  intro Hv. rewrite Hv. apply length_eqb_nil in Hv. now rewrite Hv.
Qed.

Lemma validators_consistent (host : Host) (v : JsVal) (categoryIds projectIds : list JsVal) :
  (valid (validateCategories host v) = true <-> errors (validateCategories host v) = [])
  /\ (valid (validateProjects host v) = true <-> errors (validateProjects host v) = [])
  /\ (valid (validateProjectEnvs host v categoryIds projectIds) = true <->
      errors (validateProjectEnvs host v categoryIds projectIds) = [])
  /\ (valid (validateLinks host v categoryIds) = true <->
      errors (validateLinks host v categoryIds) = []).
Proof.
  assert (G : forall (A : Type) (s : Schema A) (f : ZodIssue -> string) issues,
            reportsIssues s -> safeParse (z_array host s) v = Failure issues ->
            (false = true <-> map f issues = [])).
  { intros A s f issues Hs E. split; [discriminate|].
    intro H. apply map_eq_nil in H. subst.
    exfalso. exact (z_array_reports host s Hs [] v E). }
  unfold validateCategories, validateProjects, validateProjectEnvs, validateLinks.
  repeat split.
  - destruct (safeParse (z_array host (CategorySchema host)) v) eqn:E; cbn [valid errors].
    + apply length_eqb_nil.
    + eapply G; [apply CategorySchema_reports|exact E].
  - destruct (safeParse (z_array host (CategorySchema host)) v) eqn:E; cbn [valid errors].
    + apply length_eqb_nil.
    + eapply G; [apply CategorySchema_reports|exact E].
  - destruct (safeParse (z_array host (ProjectSchema host)) v) eqn:E; cbn [valid errors].
    + apply length_eqb_nil.
    + eapply G; [apply ProjectSchema_reports|exact E].
  - destruct (safeParse (z_array host (ProjectSchema host)) v) eqn:E; cbn [valid errors].
    + apply length_eqb_nil.
    + eapply G; [apply ProjectSchema_reports|exact E].
  - destruct (safeParse (z_array host (ProjectEnvSchema host)) v) eqn:E; cbn [valid errors].
    + apply length_eqb_nil.
    + eapply G; [apply ProjectEnvSchema_reports|exact E].
  - destruct (safeParse (z_array host (ProjectEnvSchema host)) v) eqn:E; cbn [valid errors].
    + apply length_eqb_nil.
    + eapply G; [apply ProjectEnvSchema_reports|exact E].
  - destruct (safeParse (z_array host (LinkSchema host)) v) eqn:E; cbn [valid errors].
    + apply length_eqb_nil.
    + eapply G; [apply LinkSchema_reports|exact E].
  - destruct (safeParse (z_array host (LinkSchema host)) v) eqn:E; cbn [valid errors].
    + apply length_eqb_nil.
    + eapply G; [apply LinkSchema_reports|exact E].
Qed.

(** A report is valid exactly when it carries no error: a failed schema
    check always names at least one issue. *)
Theorem reports_consistent (host : Host) (v : JsVal) (categoryIds projectIds : list JsVal) :
  (valid (validateCategories host v) = true <-> errors (validateCategories host v) = [])
  /\ (valid (validateProjects host v) = true <-> errors (validateProjects host v) = [])
  /\ (valid (validateProjectEnvs host v categoryIds projectIds) = true <->
      errors (validateProjectEnvs host v categoryIds projectIds) = [])
  /\ (valid (validateLinks host v categoryIds) = true <->
      errors (validateLinks host v categoryIds) = []).
Proof. apply validators_consistent. Qed.

(** ** [main], on every input *)

Lemma includes_strings {A : Type} (f : A -> string) (l : list A) (s : string) :
  includes (map (fun a => JStr (f a)) l) (JStr s) = true <-> In s (map f l).
Proof.
  unfold includes. rewrite existsb_exists. split.
  - intros [v [Hv E]]. apply in_map_iff in Hv. destruct Hv as [a [<- Ha]].
    cbn in E. apply String.eqb_eq in E. subst. now apply in_map.
  - intro H. apply in_map_iff in H. destruct H as [a [<- Ha]].
    exists (JStr (f a)). split; [now apply (in_map (fun a => JStr (f a)))|].
    cbn. apply String.eqb_refl.
Qed.

Lemma mapProp_elems_parsed {A : Type} (s : Schema A) (key : string) (f : A -> string)
    (p : list string) (l : list JsVal) (i : nat) (data : list A) :
  (forall q x a, s q x = Success a -> getProp key x = Normal (JStr (f a))) ->
  z_array_from s p l i = Success data ->
  mapProp_elems key l = Normal (map (fun a => JStr (f a)) data).
Proof.
  intro Hs. revert i data. induction l as [|x r IH]; intros i data H.
  - injection H as <-. reflexivity.
  - cbn [z_array_from] in H.
    apply ap_Success_inv in H. destruct H as [g [ds [Hg [Hr ->]]]].
    apply ap_Success_inv in Hg. destruct Hg as [c [d [Hc [Hd ->]]]].
    injection Hc as <-.
    cbn [mapProp_elems map]. now rewrite (Hs _ _ _ Hd), (IH _ _ Hr).
Qed.

Lemma mapProp_parsed (host : Host) {A : Type} (s : Schema A) (key : string)
    (f : A -> string) (v : JsVal) (data : list A) :
  (forall q x a, s q x = Success a -> getProp key x = Normal (JStr (f a))) ->
  safeParse (z_array host s) v = Success data ->
  mapProp key v = Normal (map (fun a => JStr (f a)) data).
Proof.
  intros Hs H. unfold safeParse, z_array in H.
  destruct v; try discriminate.
  cbn [mapProp]. eapply mapProp_elems_parsed; eassumption.
Qed.

Lemma category_id_prop (host : Host) (q : list string) (x : JsVal) (c : Category.t) :
  CategorySchema host q x = Success c -> getProp "id" x = Normal (JStr (Category.id c)).
Proof.
  intro H. apply CategorySchema_Success in H. destruct H as [fields [-> H]].
  cbn. now rewrite (proj1 H).
Qed.

Lemma project_id_prop (host : Host) (q : list string) (x : JsVal) (c : Project.t) :
  ProjectSchema host q x = Success c -> getProp "id" x = Normal (JStr (Project.id c)).
Proof.
  intro H. apply ProjectSchema_Success in H. destruct H as [fields [-> H]].
  cbn. now rewrite (proj1 H).
Qed.

Lemma project_categoryId_prop (host : Host) (q : list string) (x : JsVal) (c : Project.t) :
  ProjectSchema host q x = Success c ->
  getProp "categoryId" x = Normal (JStr (Project.categoryId c)).
Proof.
  intro H. apply ProjectSchema_Success in H. destruct H as [fields [-> H]].
  unfold projectFields in H. cbn.
  destruct H as [_ [_ [_ [_ [_ [H _]]]]]]. now rewrite H.
Qed.

Lemma errorsOf_nil (r : ValidationResult) :
  (valid r = true <-> errors r = []) -> (errorsOf r = [] <-> valid r = true).
Proof.
  intro H. unfold errorsOf. destruct (valid r); split; intro E; try reflexivity.
  - destruct H as [_ H]. specialize (H E). discriminate.
  - discriminate.
Qed.

Lemma foreign_keys_ok {A : Type} (f : A -> string) (ids : list JsVal) (l : list A) :
  existsb (fun id => negb (includes ids id)) (map (fun a => JStr (f a)) l) = false <->
  forall a, In a l -> includes ids (JStr (f a)) = true.
Proof.
  split.
  - intros H a Ha. destruct (includes ids (JStr (f a))) eqn:E; [reflexivity|].
    assert (Ht : existsb (fun id => negb (includes ids id)) (map (fun a => JStr (f a)) l)
                 = true).
    { apply existsb_exists. exists (JStr (f a)).
      split; [now apply (in_map (fun a => JStr (f a)))|now rewrite E]. }
    congruence.
  - intro H. destruct (existsb _ _) eqn:E; [|reflexivity].
    apply existsb_exists in E. destruct E as [v [Hv E]].
    apply in_map_iff in Hv. destruct Hv as [a [<- Ha]].
    rewrite (H a Ha) in E. discriminate.
Qed.

Lemma main_errors_thrown (host : Host) (files : DataFiles) (allErrors : list string)
    (e : JsError) :
  main_try host files [] = (allErrors, Throw e) -> main_errors host files <> [].
Proof.
  intro H. unfold main_errors. rewrite H.
  intro E. apply app_eq_nil in E. destruct E as [_ E]. discriminate.
Qed.

Lemma main_try_loaded (host : Host) (cv pv ev lv : JsVal) :
  main_try host (mkFiles (Normal cv) (Normal pv) (Normal ev) (Normal lv)) [] =
  match mapProp "id" cv, mapProp "id" pv with
  | Normal categoryIds, Normal projectIds =>
      projectForeignKeys pv categoryIds
        (errorsOf (validateCategories host cv)
         ++ errorsOf (validateProjects host pv)
         ++ errorsOf (validateProjectEnvs host ev categoryIds projectIds)
         ++ errorsOf (validateLinks host lv categoryIds))%list
  | Throw e, _ =>
      ((errorsOf (validateCategories host cv)
        ++ errorsOf (validateProjects host pv))%list, Throw e)
  | Normal _, Throw e =>
      ((errorsOf (validateCategories host cv)
        ++ errorsOf (validateProjects host pv))%list, Throw e)
  end.
Proof.
  unfold main_try, bind, lift, collect, errorsOf.
  cbn [categories_yaml projects_yaml project_envs_yaml links_yaml].
  generalize (validateCategories host cv) (validateProjects host pv).
  intros r1 r2.
  destruct (mapProp "id" cv) as [cids|e1], (mapProp "id" pv) as [pids|e2];
    try (destruct (valid r1), (valid r2); cbn [negb]; unfold push, ret; cbn [app];
         rewrite ?app_nil_r; reflexivity).
  generalize (validateProjectEnvs host ev cids pids) (validateLinks host lv cids).
  intros r3 r4.
  destruct (valid r1), (valid r2), (valid r3), (valid r4);
    cbn [negb]; unfold push, ret; cbn [app];
    rewrite ?app_nil_r, <- ?app_assoc; reflexivity.
Qed.

(** [main] exits with 0 exactly when the four files load, every schema check
    passes and the parsed dataset has its integrity: pairwise distinct
    category ids, project ids, project names, link ids and (projectId, env)
    pairs, every project and every link with a non-empty [categoryId] in a
    category that exists, and every env record on a project that exists. *)
Theorem main_accepts (host : Host) (files : DataFiles) :
  main host files = Exit 0 [] <->
  exists cv pv ev lv C P E L,
    files = mkFiles (Normal cv) (Normal pv) (Normal ev) (Normal lv)
    /\ safeParse (z_array host (CategorySchema host)) cv = Success C
    /\ safeParse (z_array host (ProjectSchema host)) pv = Success P
    /\ safeParse (z_array host (ProjectEnvSchema host)) ev = Success E
    /\ safeParse (z_array host (LinkSchema host)) lv = Success L
    /\ integrity C P E L.
Proof.
  assert (Hmain : main host files = Exit 0 [] <-> main_errors host files = []).
  { unfold main. destruct (main_errors host files); cbn; split; intro H;
      try reflexivity; discriminate. }
  rewrite Hmain. clear Hmain. split.
  - intro H.
    destruct files as [[cv|e] [pv|e'] [ev|e''] [lv|e''']];
      try (exfalso; revert H; eapply main_errors_thrown; reflexivity).
    pose proof (main_try_loaded host cv pv ev lv) as Ht.
    destruct (mapProp "id" cv) as [cids|e1] eqn:Ec;
      [|exfalso; revert H; eapply main_errors_thrown; exact Ht].
    destruct (mapProp "id" pv) as [pids|e2] eqn:Ep;
      [|exfalso; revert H; eapply main_errors_thrown; exact Ht].
    destruct (mapProp "categoryId" pv) as [fks|e3] eqn:Ef.
    2:{ exfalso. revert H. eapply main_errors_thrown. rewrite Ht.
        unfold projectForeignKeys, bind, lift. rewrite Ef. reflexivity. }
    rewrite (main_errors_loaded host cv pv ev lv cids pids fks Ec Ep Ef) in H.
    apply app_eq_nil in H. destruct H as [H1 H].
    apply app_eq_nil in H. destruct H as [H2 H].
    apply app_eq_nil in H. destruct H as [H3 H].
    apply app_eq_nil in H. destruct H as [H4 H5].
    destruct (validators_consistent host cv cids pids) as [V1 _].
    destruct (validators_consistent host pv cids pids) as [_ [V2 _]].
    destruct (validators_consistent host ev cids pids) as [_ [_ [V3 _]]].
    destruct (validators_consistent host lv cids pids) as [_ [_ [_ V4]]].
    apply (errorsOf_nil _ V1), validateCategories_valid_iff in H1.
    apply (errorsOf_nil _ V2), validateProjects_valid_iff in H2.
    apply (errorsOf_nil _ V3), validateProjectEnvs_valid_iff in H3.
    apply (errorsOf_nil _ V4), validateLinks_valid_iff in H4.
    destruct H1 as [C [PC NC]]. destruct H2 as [P [PP [NP1 NP2]]].
    destruct H3 as [E [PE [FE NE]]]. destruct H4 as [L [PL [NL FL]]].
    pose proof (mapProp_parsed host _ "id" Category.id cv C
                  (category_id_prop host) PC) as Ec'.
    pose proof (mapProp_parsed host _ "id" Project.id pv P
                  (project_id_prop host) PP) as Ep'.
    pose proof (mapProp_parsed host _ "categoryId" Project.categoryId pv P
                  (project_categoryId_prop host) PP) as Ef'.
    rewrite Ec in Ec'. rewrite Ep in Ep'. rewrite Ef in Ef'.
    injection Ec' as ->. injection Ep' as ->. injection Ef' as ->.
    exists cv, pv, ev, lv, C, P, E, L.
    repeat split; try assumption.
    + intros x Hx. apply (includes_strings Category.id).
      destruct (existsb _ _) eqn:Ex in H5; [discriminate|].
      exact (proj1 (foreign_keys_ok Project.categoryId _ P) Ex x Hx).
    + intros e He. apply (includes_strings Project.id). now apply FE.
    + intros l s Hl Hs Hne. apply (includes_strings Category.id). now apply (FL l s).
  - intros [cv [pv [ev [lv [C [P [E [L [-> [PC [PP [PE [PL HI]]]]]]]]]]]]].
    destruct HI as [NC [NP1 [NP2 [FP [FE [NE [NL FL]]]]]]].
    pose proof (mapProp_parsed host _ "id" Category.id cv C
                  (category_id_prop host) PC) as Ec.
    pose proof (mapProp_parsed host _ "id" Project.id pv P
                  (project_id_prop host) PP) as Ep.
    pose proof (mapProp_parsed host _ "categoryId" Project.categoryId pv P
                  (project_categoryId_prop host) PP) as Ef.
    rewrite (main_errors_loaded host cv pv ev lv _ _ _ Ec Ep Ef).
    assert (V1 : valid (validateCategories host cv) = true)
      by (apply validateCategories_valid_iff; now exists C).
    assert (V2 : valid (validateProjects host pv) = true)
      by (apply validateProjects_valid_iff; now exists P).
    assert (V3 : valid (validateProjectEnvs host ev
                          (map (fun a => JStr (Category.id a)) C)
                          (map (fun a => JStr (Project.id a)) P)) = true).
    { apply validateProjectEnvs_valid_iff. exists E. repeat split; try assumption.
      intros e He. apply (includes_strings Project.id). now apply FE. }
    assert (V4 : valid (validateLinks host lv (map (fun a => JStr (Category.id a)) C))
                 = true).
    { apply validateLinks_valid_iff. exists L. repeat split; try assumption.
      intros l s Hl Hs Hne. apply (includes_strings Category.id). now apply (FL l s). }
    unfold errorsOf. rewrite V1, V2, V3, V4. cbn [app].
    assert (Hfk : existsb (fun id => negb (includes (map (fun a => JStr (Category.id a)) C) id))
                    (map (fun a => JStr (Project.categoryId a)) P) = false).
    { apply foreign_keys_ok. intros x Hx. apply (includes_strings Category.id).
      now apply FP. }
    now rewrite Hfk.
Qed.

Lemma mapProp_elems_throws (key : string) (l : list JsVal) :
  (exists e, mapProp_elems key l = Throw e) <-> In JNull l \/ In JUndefined l.
Proof.
  induction l as [|x r IH]; cbn [mapProp_elems In].
  - split; [intros [e H]; discriminate|tauto].
  - destruct (getProp key x) as [y|e0] eqn:Ex.
    + assert (Hx : x <> JNull /\ x <> JUndefined)
        by (split; intro; subst; discriminate).
      destruct (mapProp_elems key r) as [ys|e1].
      * split; [intros [e H]; discriminate|].
        destruct IH as [_ IH].
        intros [[H|H]|[H|H]]; try tauto;
          [destruct (IH (or_introl H))|destruct (IH (or_intror H))]; discriminate.
      * split; [intros _|intros _; now exists e1].
        destruct IH as [IH _]. destruct (IH (ex_intro _ e1 eq_refl)); tauto.
    + split; [intros _|intros _; now exists e0].
      destruct x; try discriminate; auto.
Qed.

Lemma mapProp_elems_TypeError (key : string) (l : list JsVal) (e : JsError) :
  mapProp_elems key l = Throw e -> exists kind, e = TypeError kind.
Proof.
  induction l as [|x r IH]; cbn [mapProp_elems]; [discriminate|].
  destruct (getProp key x) as [y|e0] eqn:Ex.
  - destruct (mapProp_elems key r) as [ys|e1]; [discriminate|].
    intro H. injection H as <-. now apply IH.
  - intro H. injection H as <-.
    destruct x; cbn in Ex; try discriminate; injection Ex as <-; eexists; reflexivity.
Qed.

Lemma mapProp_TypeError (key : string) (v : JsVal) (e : JsError) :
  mapProp key v = Throw e -> exists kind, e = TypeError kind.
Proof.
  destruct v; cbn [mapProp]; intro H;
    try (injection H as <-; eexists; reflexivity).
  now apply mapProp_elems_TypeError in H.
Qed.

Lemma mapProp_throws (key : string) (v : JsVal) :
  (forall elems, v = JArr elems -> In JNull elems \/ In JUndefined elems) ->
  exists kind, mapProp key v = Throw (TypeError kind).
Proof.
  intro Hv. destruct v; try (eexists; reflexivity).
  cbn [mapProp]. specialize (Hv elems eq_refl).
  apply (mapProp_elems_throws key) in Hv. destruct Hv as [e He].
  destruct (mapProp_elems_TypeError _ _ _ He) as [kind ->].
  now exists kind.
Qed.

(** When a loaded categories or projects document is no list, or lists an
    empty entry, [main] reports the schema issues of the categories and of
    the projects, then the [TypeError] as a failure to read the data files,
    and exits with 1: the env records and the links are not validated and
    the projects' [categoryId]s are not checked. *)
Theorem main_stops_at_unreadable_ids (host : Host) (cv pv ev lv : JsVal) :
  (forall elems, cv = JArr elems -> In JNull elems \/ In JUndefined elems)
  \/ (forall elems, pv = JArr elems -> In JNull elems \/ In JUndefined elems) ->
  exists kind,
    main host (mkFiles (Normal cv) (Normal pv) (Normal ev) (Normal lv)) =
    Exit 1 (errorsOf (validateCategories host cv)
            ++ errorsOf (validateProjects host pv)
            ++ ["Failed to read data files: " ++ typeErrorText host kind]%string)%list.
Proof.
  intro H.
  assert (G : exists kind,
            main_try host (mkFiles (Normal cv) (Normal pv) (Normal ev) (Normal lv)) [] =
            ((errorsOf (validateCategories host cv)
              ++ errorsOf (validateProjects host pv))%list, Throw (TypeError kind))).
  { rewrite main_try_loaded. destruct H as [H|H].
    - destruct (mapProp_throws "id" cv H) as [kind ->]. now exists kind.
    - destruct (mapProp_throws "id" pv H) as [kind ->].
      destruct (mapProp "id" cv) as [cids|e] eqn:Ec; [now exists kind|].
      destruct (mapProp_TypeError _ _ _ Ec) as [kind' ->]. now exists kind'. }
  destruct G as [kind G]. exists kind.
  unfold main, main_errors. rewrite G. cbn [errorToString].
  rewrite <- app_assoc.
  destruct ((errorsOf (validateCategories host cv) ++
             errorsOf (validateProjects host pv) ++
             ["Failed to read data files: " ++ typeErrorText host kind]%string)%list) eqn:E;
    [|reflexivity].
  apply app_eq_nil in E. destruct E as [_ E].
  apply app_eq_nil in E. destruct E as [_ E]. discriminate.
Qed.

Lemma main_stops_at_unreadable_ids_witness :
  main sampleHost files_null_categories =
  Exit 1 ["Category validation error:  - Expected array, received null";
          "Failed to read data files: TypeError: Cannot read properties of null (reading 'map')"]%string.
Proof.
  destruct (main_stops_at_unreadable_ids sampleHost JNull
              (JArr [rawProject "svc" "Service" "infra"])
              (JArr [rawEnv "ghost" "prod" "not a url"]) JNull)
    as [kind H].
  - left. intros elems E. discriminate E.
  - reflexivity.
Defined.

(** ** The build pipeline, on every input *)

Lemma list_sum_perm (l l' : list nat) : Permutation l l' -> list_sum l = list_sum l'.
Proof.
  induction 1 as [| x l l' _ IH | x y l | l l' l'' _ IH1 _ IH2].
  - reflexivity.
  - change (x + list_sum l = x + list_sum l')%nat. lia.
  - change (y + (x + list_sum l) = x + (y + list_sum l))%nat. lia.
  - lia.
Qed.

Lemma list_sum_cons (a : nat) (l : list nat) : list_sum (a :: l) = (a + list_sum l)%nat.
Proof. reflexivity. Qed.

Lemma sum_filter_cons {K X : Type} (m : K -> X -> bool) (ks : list K) (x : X) (r : list X) :
  list_sum (map (fun k => List.length (filter (m k) (x :: r))) ks) =
  (List.length (filter (fun k => m k x) ks)
   + list_sum (map (fun k => List.length (filter (m k) r)) ks))%nat.
Proof.
  induction ks as [|k ks IH]; [reflexivity|].
  cbn [map]. rewrite !list_sum_cons, IH.
  cbn [filter]. destruct (m k x); cbn [List.length]; lia.
Qed.

Lemma sum_filter_nil {K X : Type} (m : K -> X -> bool) (ks : list K) :
  list_sum (map (fun k => List.length (filter (m k) [])) ks) = 0%nat.
Proof. induction ks as [|k ks IH]; [reflexivity|exact IH]. Qed.

Lemma count_unique_key {K : Type} (key : K -> string) (ks : list K) (s : string) :
  NoDup (map key ks) ->
  List.length (filter (fun k => String.eqb s (key k)) ks) =
  if existsb (fun k => String.eqb s (key k)) ks then 1%nat else 0%nat.
Proof.
  induction ks as [|k ks IH]; cbn [map filter existsb]; intro Hnd; [reflexivity|].
  inversion Hnd as [|? ? Hnotin Hnd']; subst.
  destruct (String.eqb_spec s (key k)) as [E|E]; cbn [orb List.length].
  - rewrite filter_none; [reflexivity|].
    intros x Hx. apply String.eqb_neq. intro E'. apply Hnotin.
    rewrite <- E, E'. now apply in_map.
  - now apply IH.
Qed.

Lemma itemCount_group (localeCompare : string -> string -> Z)
    (categories : list Category.t) (navigationItems : list NavigationItem.t) :
  itemCount (groupByCategory localeCompare categories navigationItems) =
  list_sum (map (fun c => List.length (itemsOf c navigationItems)) categories).
Proof.
  unfold itemCount, groupByCategory.
  rewrite <- (list_sum_perm _ _ (Permutation_map _ (Array_sort_perm _ _))).
  rewrite group_unsorted, map_map.
  induction categories as [|c r IH]; [reflexivity|].
  cbn [filter map]. rewrite list_sum_cons, <- IH.
  destruct (itemsOf c navigationItems) eqn:E; [reflexivity|].
  cbn [List.length Z.of_nat Z.ltb Z.compare map].
  rewrite list_sum_cons. cbn [CategoryBlock.items blockOf].
  now rewrite Array_sort_length, E.
Qed.

Lemma kept_items_count (categories : list Category.t)
    (navigationItems : list NavigationItem.t) :
  NoDup (map Category.id categories) ->
  list_sum (map (fun c => List.length (itemsOf c navigationItems)) categories) =
  List.length (filter (fun item => NavigationItem.enabled item
                                   && categoryExists categories item)
                      navigationItems).
Proof.
  intro Hnd. unfold itemsOf.
  induction navigationItems as [|item r IH].
  - apply (sum_filter_nil
             (fun c item => String.eqb (NavigationItem.categoryId item) (Category.id c)
                            && NavigationItem.enabled item)).
  - rewrite (sum_filter_cons
               (fun c item => String.eqb (NavigationItem.categoryId item) (Category.id c)
                              && NavigationItem.enabled item)).
    rewrite IH. cbn [filter].
    destruct (NavigationItem.enabled item); cbn [andb].
    + rewrite (filter_ext _ (fun c => String.eqb (NavigationItem.categoryId item)
                                                 (Category.id c)))
        by (intro c; apply andb_true_r).
      rewrite (count_unique_key Category.id) by exact Hnd.
      fold (categoryExists categories item).
      destruct (categoryExists categories item); reflexivity.
    + rewrite filter_none by (intros c _; apply andb_false_r). reflexivity.
Qed.

(** Items of a category that does not exist are dropped without an error: an
    item whose [categoryId] is the id of no category stands in no block. *)
Theorem unknown_category_dropped (localeCompare : string -> string -> Z)
    (categories : list Category.t) (navigationItems : list NavigationItem.t)
    (item : NavigationItem.t) :
  categoryExists categories item = false ->
  Forall (fun block => ~ In item (CategoryBlock.items block))
         (groupByCategory localeCompare categories navigationItems).
Proof.
  intro H. apply Forall_forall. intros block Hb Hin.
  apply group_In in Hb. destruct Hb as [c [Hc [_ ->]]].
  apply block_items_In in Hin. destruct Hin as [_ [Hid _]].
  assert (Ht : categoryExists categories item = true).
  { apply existsb_exists. exists c. split; [exact Hc|]. now apply String.eqb_eq. }
  congruence.
Qed.

Lemma unknown_category_dropped_witness :
  Forall (fun block => ~ In (navigationItem project_misc env_m_prod)
                            (CategoryBlock.items block))
         (groupByCategory codeUnitCompare [category_infra]
            (navigationItem project_misc env_m_prod :: sample_items)).
Proof.
  apply (unknown_category_dropped codeUnitCompare [category_infra]
           (navigationItem project_misc env_m_prod :: sample_items)
           (navigationItem project_misc env_m_prod)).
  reflexivity.
Defined.

(** When the category ids are pairwise distinct, the blocks hold as many
    items as there are enabled items of an existing category: no item is
    lost and none is counted twice. *)
Theorem blocks_keep_every_item (localeCompare : string -> string -> Z)
    (categories : list Category.t) (navigationItems : list NavigationItem.t) :
  NoDup (map Category.id categories) ->
  itemCount (groupByCategory localeCompare categories navigationItems) =
  List.length (filter (fun item => NavigationItem.enabled item
                                   && categoryExists categories item)
                      navigationItems).
Proof.
  intro Hnd. rewrite itemCount_group. now apply kept_items_count.
Qed.

Lemma blocks_keep_every_item_witness :
  itemCount (groupByCategory codeUnitCompare [category_infra; category_misc]
               (sample_items ++ late_items)) = 4%nat.
Proof.
  refine (eq_trans (blocks_keep_every_item codeUnitCompare [category_infra; category_misc]
                      (sample_items ++ late_items) _) _).
  - repeat constructor; simpl; intuition discriminate.
  - reflexivity.
Defined.

Lemma expand_length_sum (projects : list Project.t) (projectEnvs : list ProjectEnv.t) :
  List.length (expandNavigationItems projects projectEnvs) =
  list_sum (map (fun e => List.length (projectsOf projects e)) projectEnvs).
Proof.
  induction projectEnvs as [|e r IH].
  - apply expand_length_nil.
  - rewrite expand_length_cons, IH. reflexivity.
Qed.

Lemma expand_length_existing (projects : list Project.t) (projectEnvs : list ProjectEnv.t) :
  NoDup (map Project.id projects) ->
  List.length (expandNavigationItems projects projectEnvs) =
  List.length (filter (projectExists projects) projectEnvs).
Proof.
  intro Hnd. induction projectEnvs as [|e r IH].
  - apply expand_length_nil.
  - rewrite expand_length_cons, IH. cbn [filter].
    unfold projectsOf, projectExists at 2, envOf.
    rewrite (count_unique_key Project.id) by exact Hnd.
    destruct (existsb _ projects); reflexivity.
Qed.

(** [expandNavigationItems] emits, for every env record, one item per
    project that carries its [projectId], and every item stems from an env
    record of an existing project.  With pairwise distinct project ids that
    is one item for an env record of an existing project and none for an env
    record of an unknown project, which is dropped without an error. *)
Theorem expand_drops_unmatched (projects : list Project.t) (projectEnvs : list ProjectEnv.t) :
  List.length (expandNavigationItems projects projectEnvs)
  = list_sum (map (fun e => List.length (projectsOf projects e)) projectEnvs)
  /\ Forall (fun item =>
               existsb (fun e => String.eqb (ProjectEnv.projectId e)
                                            (NavigationItem.projectId item)
                                 && projectExists projects e)
                       projectEnvs = true)
            (expandNavigationItems projects projectEnvs)
  /\ (NoDup (map Project.id projects) ->
      List.length (expandNavigationItems projects projectEnvs)
      = List.length (filter (projectExists projects) projectEnvs)).
Proof.
  split; [apply expand_length_sum|]. split; [|apply expand_length_existing].
  apply Forall_forall. intros item Hin. apply expand_In in Hin.
  destruct Hin as [project [env [Hp [He [Hm ->]]]]].
  apply existsb_exists. exists env. split; [exact He|]. cbn.
  apply andb_true_iff. split; [now apply String.eqb_eq|].
  apply existsb_exists. exists project. split; [exact Hp|].
  unfold envOf. now apply String.eqb_eq.
Qed.

Lemma expand_drops_unmatched_witness :
  List.length (expandNavigationItems sample_projects (env_a_prod :: sample_envs)) = 4%nat
  /\ List.length (expandNavigationItems [project_a1; project_a2] [env_a_prod])
     = list_sum (map (fun e => List.length (projectsOf [project_a1; project_a2] e))
                     [env_a_prod]).
Proof.
  split.
  - refine (eq_trans (proj2 (proj2 (expand_drops_unmatched sample_projects
                                      (env_a_prod :: sample_envs))) _) _).
    + repeat constructor; simpl; intuition discriminate.
    + reflexivity.
  - exact (proj1 (expand_drops_unmatched [project_a1; project_a2] [env_a_prod])).
Defined.

Lemma expand_enabled (projects : list Project.t) (projectEnvs : list ProjectEnv.t) :
  filter NavigationItem.enabled (expandNavigationItems projects projectEnvs) =
  expandNavigationItems projects (filter ProjectEnv.enabled projectEnvs).
Proof.
  unfold expandNavigationItems. cbv zeta.
  induction projects as [|p r IH]; [reflexivity|].
  cbn [flat_map]. rewrite filter_app, IH. f_equal.
  rewrite filter_map_comm. cbn [NavigationItem.enabled navigationItem].
  f_equal. apply filter_comm.
Qed.

(** How the two functions compose on typed records.  When the category ids
    and the project ids are pairwise distinct, every project is in a category
    that exists and every env record is on a project that exists, then
    [expandNavigationItems] yields as many items as there are env records and
    [groupByCategory], applied to them, holds in its blocks as many items as
    there are env records whose [enabled] is [true]. *)
Theorem expand_then_group_keeps_enabled (localeCompare : string -> string -> Z)
    (C : list Category.t) (P : list Project.t) (E : list ProjectEnv.t) :
  NoDup (map Category.id C) ->
  NoDup (map Project.id P) ->
  (forall x, In x P -> In (Project.categoryId x) (map Category.id C)) ->
  (forall e, In e E -> In (ProjectEnv.projectId e) (map Project.id P)) ->
  List.length (expandNavigationItems P E) = List.length E
  /\ itemCount (groupByCategory localeCompare C (expandNavigationItems P E))
     = List.length (filter ProjectEnv.enabled E).
Proof.
  intros NC NP FP FE.
  assert (Hall : forall E', (forall e, In e E' -> In e E) ->
                            filter (projectExists P) E' = E').
  { intros E' Hsub. induction E' as [|e r IH]; [reflexivity|].
    cbn [filter].
    assert (Hex : projectExists P e = true).
    { specialize (FE e (Hsub e (or_introl eq_refl))).
      apply in_map_iff in FE. destruct FE as [p [Hid Hp]].
      apply existsb_exists. exists p. split; [exact Hp|].
      unfold envOf. now apply String.eqb_eq. }
    rewrite Hex. f_equal. apply IH. intros x Hx. apply Hsub. now right. }
  split.
  - rewrite (expand_length_existing P E NP). f_equal. now apply Hall.
  - rewrite itemCount_group, (kept_items_count C _ NC).
    rewrite (filter_ext_in _ NavigationItem.enabled).
    + rewrite expand_enabled, (expand_length_existing P _ NP). f_equal.
      apply Hall. intros e He. apply filter_In in He. tauto.
    + intros item Hin. apply expand_In in Hin.
      destruct Hin as [p [e [Hp [_ [_ ->]]]]].
      assert (Hex : categoryExists C (navigationItem p e) = true).
      { specialize (FP p Hp). apply in_map_iff in FP. destruct FP as [c [Hid Hc]].
        apply existsb_exists. exists c. split; [exact Hc|].
        cbn. now apply String.eqb_eq. }
      rewrite Hex. apply andb_true_r.
Qed.

(** Empty inputs give empty outputs: without env records or without projects
    there is no item, and without items or without categories there is no
    block. *)
Theorem empty_inputs (localeCompare : string -> string -> Z)
    (categories : list Category.t) (projects : list Project.t)
    (projectEnvs : list ProjectEnv.t) (navigationItems : list NavigationItem.t) :
  expandNavigationItems projects [] = []
  /\ expandNavigationItems [] projectEnvs = []
  /\ groupByCategory localeCompare categories [] = []
  /\ groupByCategory localeCompare [] navigationItems = [].
Proof.
  repeat split.
  - apply length_zero_iff_nil, expand_length_nil.
  - unfold groupByCategory. rewrite group_unsorted.
    rewrite filter_none; [reflexivity|]. intros c _. reflexivity.
Qed.

Lemma expand_then_group_keeps_enabled_witness :
  List.length (expandNavigationItems sample_projects sample_envs) = 4%nat
  /\ itemCount (groupByCategory codeUnitCompare [category_infra]
                  (expandNavigationItems sample_projects sample_envs)) = 3%nat.
Proof.
  refine (expand_then_group_keeps_enabled codeUnitCompare [category_infra]
            sample_projects sample_envs _ _ _ _);
    try (repeat constructor; simpl; intuition discriminate).
  all: simpl; intros; intuition (subst; simpl; auto).
Defined.

Lemma main_accepts_witness : main sampleHost files_sound = Exit 0 [].
Proof.
  apply (proj2 (main_accepts sampleHost files_sound)).
  exists categories_one, (JArr [rawProject "svc" "Service" "infra"]),
    (JArr [rawEnv "svc" "prod" "https://svc.example.com";
           rawEnv "svc" "test" "https://test.example.com"]), (JArr []),
    [Category.mk "infra" "Infrastructure" None None None],
    [Project.mk "svc" "Service" None "infra" None None],
    [ProjectEnv.mk "svc" prod "https://svc.example.com" None true;
     ProjectEnv.mk "svc" test "https://test.example.com" None true],
    [].
  unfold integrity. repeat split;
    try (repeat constructor; simpl; intuition discriminate).
  all: simpl; intros; intuition (subst; simpl; auto).
Defined.

(** The blocks are the categories that keep at least one enabled item, each
    of them once and with its record unchanged; so there are never more
    blocks than categories. *)
Theorem blocks_are_the_used_categories (localeCompare : string -> string -> Z)
    (categories : list Category.t) (navigationItems : list NavigationItem.t) :
  Permutation
    (map CategoryBlock.category (groupByCategory localeCompare categories navigationItems))
    (filter (fun c => existsb (fun item =>
                                 String.eqb (NavigationItem.categoryId item) (Category.id c)
                                 && NavigationItem.enabled item)
                              navigationItems)
            categories)
  /\ (List.length (groupByCategory localeCompare categories navigationItems)
      <= List.length categories)%nat.
Proof.
  assert (H : Permutation
                (map CategoryBlock.category
                     (groupByCategory localeCompare categories navigationItems))
                (filter (fun c => 0 <? Z.of_nat (List.length (itemsOf c navigationItems)))
                        categories)).
  { unfold groupByCategory.
    eapply perm_trans; [apply Permutation_sym, Permutation_map, Array_sort_perm|].
    rewrite group_unsorted, map_map. cbn [CategoryBlock.category blockOf].
    rewrite map_id. apply Permutation_refl. }
  split.
  - eapply perm_trans; [exact H|].
    rewrite (filter_ext _ (fun c => existsb (fun item =>
                                 String.eqb (NavigationItem.categoryId item) (Category.id c)
                                 && NavigationItem.enabled item) navigationItems));
      [apply Permutation_refl|].
    intro c. unfold itemsOf. rewrite <- nonempty_filter_existsb.
    now destruct (filter _ navigationItems).
  - apply Permutation_length in H. rewrite length_map in H. rewrite H.
    apply filter_length_le.
Qed.

(** ** Where the schema issues point *)

Section IssuePaths.
Variable host : Host.

Lemma z_string_min1_place : issuesAtPlace (z_string_min1 host).
Proof.
  intros p v. unfold z_string_min1. destruct v; try (cbn; repeat constructor; fail).
  destruct (1 <=? String.length s)%nat; cbn; repeat constructor.
Qed.

Lemma z_string_place : issuesAtPlace (z_string host).
Proof. intros p v. unfold z_string. destruct v; cbn; repeat constructor. Qed.

Lemma z_string_url_place : issuesAtPlace (z_string_url host).
Proof.
  intros p v. unfold z_string_url. destruct v; try (cbn; repeat constructor; fail).
  destruct (isUrl host s); cbn; repeat constructor.
Qed.

Lemma z_number_int_min0_place : issuesAtPlace (z_number_int_min0 host).
Proof.
  intros p v. unfold z_number_int_min0. destruct v; try (cbn; repeat constructor; fail).
  destruct (0 <=? n); cbn; repeat constructor.
Qed.

Lemma z_boolean_place : issuesAtPlace (z_boolean host).
Proof. intros p v. unfold z_boolean. destruct v; cbn; repeat constructor. Qed.

Lemma EnvTypeSchema_place : issuesAtPlace (EnvTypeSchema host).
Proof.
  intros p v. unfold EnvTypeSchema. destruct v; try (cbn; repeat constructor; fail).
  destruct (find (fun e => String.eqb (EnvType_str e) s) EnvType_values);
    cbn; repeat constructor.
Qed.

Lemma z_optional_place {A : Type} (s : Schema A) :
  issuesAtPlace s -> issuesAtPlace (z_optional s).
Proof.
  intros Hs p v. pose proof (Hs p v) as H. unfold z_optional.
  destruct v; try constructor; destruct (s p _); cbn in *; assumption.
Qed.

Lemma z_default_place {A : Type} (s : Schema A) (d : A) :
  issuesAtPlace s -> issuesAtPlace (z_default s d).
Proof.
  intros Hs p v. unfold z_default. destruct v; try constructor; apply Hs.
Qed.

Lemma field_points {A : Type} (s : Schema A) (key : string) (keys : list string)
    (p : list string) (fields : list (string * JsVal)) :
  issuesAtPlace s -> In key keys ->
  Forall (pointsAt keys p) (issuesOf (field s key p fields)).
Proof.
  intros Hs Hk. unfold field.
  eapply Forall_impl; [|apply Hs].
  intros i Hi. right. now exists key.
Qed.

Ltac object_points :=
  intros p v; unfold z_object; destruct v;
  try (cbn; constructor; [now left|constructor]);
  rewrite !ap_issues; cbn [issuesOf app];
  repeat (apply Forall_app; split);
  (apply field_points;
   [ first [ apply z_string_min1_place
           | apply z_string_url_place
           | apply EnvTypeSchema_place
           | apply z_optional_place; first [apply z_string_place
                                            |apply z_number_int_min0_place]
           | apply z_default_place; apply z_boolean_place ]
   | cbn; tauto ]).

Lemma CategorySchema_points :
  forall p v, Forall (pointsAt categoryKeys p) (issuesOf (CategorySchema host p v)).
Proof. unfold CategorySchema. object_points. Qed.

Lemma ProjectSchema_points :
  forall p v, Forall (pointsAt projectKeys p) (issuesOf (ProjectSchema host p v)).
Proof. unfold ProjectSchema. object_points. Qed.

Lemma ProjectEnvSchema_points :
  forall p v, Forall (pointsAt projectEnvKeys p) (issuesOf (ProjectEnvSchema host p v)).
Proof. unfold ProjectEnvSchema. object_points. Qed.

Lemma LinkSchema_points :
  forall p v, Forall (pointsAt linkKeys p) (issuesOf (LinkSchema host p v)).
Proof. unfold LinkSchema. object_points. Qed.

Lemma elementIssues_point {A : Type} (s : Schema A) (keys : list string)
    (l : list JsVal) (i : nat) :
  (forall p v, Forall (pointsAt keys p) (issuesOf (s p v))) ->
  Forall (fun issue => exists k, (i <= k < i + List.length l)%nat
                                 /\ pointsAt keys [indexToString k] issue)
         (elementIssues s [] l i).
Proof.
  intro Hs. revert i. induction l as [|x r IH]; intro i; [constructor|].
  cbn [elementIssues List.length]. apply Forall_app. split.
  - eapply Forall_impl; [|apply Hs].
    intros issue H. exists i. split; [lia|exact H].
  - eapply Forall_impl; [|apply IH].
    intros issue [k [Hk H]]. exists k. split; [lia|exact H].
Qed.

Lemma array_issues_point {A : Type} (s : Schema A) (keys : list string) (v : JsVal) :
  (forall p v, Forall (pointsAt keys p) (issuesOf (s p v))) ->
  match v with
  | JArr elems =>
      Forall (fun issue => exists k, (k < List.length elems)%nat
                                     /\ pointsAt keys [indexToString k] issue)
             (issuesOf (safeParse (z_array host s) v))
  | _ => issuesOf (safeParse (z_array host s) v) = [issue host [] (invalid_type "array" v)]
  end.
Proof.
  intro Hs. destruct v; try reflexivity.
  unfold safeParse, z_array. rewrite z_array_from_issues.
  eapply Forall_impl; [|apply (elementIssues_point s keys elems 0 Hs)].
  intros issue [k [Hk H]]. exists k. split; [lia|exact H].
Qed.
End IssuePaths.

(** Every issue of a failed schema check points at its record: its path is
    the index of one element of the document, alone or followed by one key
    of the schema; a document that is no list gets one issue with the empty
    path. *)
Theorem issues_point_at_records (host : Host) (v : JsVal) :
  match v with
  | JArr elems =>
      Forall (fun issue => exists k, (k < List.length elems)%nat
                                     /\ pointsAt categoryKeys [indexToString k] issue)
             (issuesOf (safeParse (z_array host (CategorySchema host)) v))
      /\ Forall (fun issue => exists k, (k < List.length elems)%nat
                                        /\ pointsAt projectKeys [indexToString k] issue)
                (issuesOf (safeParse (z_array host (ProjectSchema host)) v))
      /\ Forall (fun issue => exists k, (k < List.length elems)%nat
                                        /\ pointsAt projectEnvKeys [indexToString k] issue)
                (issuesOf (safeParse (z_array host (ProjectEnvSchema host)) v))
      /\ Forall (fun issue => exists k, (k < List.length elems)%nat
                                        /\ pointsAt linkKeys [indexToString k] issue)
                (issuesOf (safeParse (z_array host (LinkSchema host)) v))
  | _ =>
      issuesOf (safeParse (z_array host (CategorySchema host)) v)
        = [issue host [] (invalid_type "array" v)]
      /\ issuesOf (safeParse (z_array host (ProjectSchema host)) v)
         = [issue host [] (invalid_type "array" v)]
      /\ issuesOf (safeParse (z_array host (ProjectEnvSchema host)) v)
         = [issue host [] (invalid_type "array" v)]
      /\ issuesOf (safeParse (z_array host (LinkSchema host)) v)
         = [issue host [] (invalid_type "array" v)]
  end.
Proof.
  pose proof (array_issues_point host _ categoryKeys v (CategorySchema_points host)) as H1.
  pose proof (array_issues_point host _ projectKeys v (ProjectSchema_points host)) as H2.
  pose proof (array_issues_point host _ projectEnvKeys v (ProjectEnvSchema_points host)) as H3.
  pose proof (array_issues_point host _ linkKeys v (LinkSchema_points host)) as H4.
  destruct v; auto.
Qed.

(** ** [main]: where the foreign keys are checked *)





(** ** The schema of the items *)

Section ItemSchema.
Variable host : Host.

Lemma z_number_int_Success (p : list string) (v : JsVal) (n : Z) :
  z_number_int host p v = Success n <-> v = JNum n.
Proof.
  unfold z_number_int. destruct v; try (split; discriminate).
  split; intro H; injection H as <-; reflexivity.
Qed.

Lemma NavigationItemSchema_Success (p : list string) (v : JsVal) (item : NavigationItem.t) :
  NavigationItemSchema host p v = Success item <->
  exists fields, v = JObj fields /\ navigationItemFields host fields item.
Proof.
  unfold NavigationItemSchema, z_object, navigationItemFields. split.
  - destruct v; try discriminate. intro H.
    repeat (let g := fresh "g" in
            let a := fresh "a" in
            let Ha := fresh "Ha" in
            apply ap_Success_inv in H; destruct H as (g & a & H & Ha & ->)).
    injection H as <-. unfold field in *.
    repeat match goal with
           | H : z_string_min1 _ _ _ = Success _ |- _ => apply z_string_min1_Success in H
           | H : z_string_url _ _ _ = Success _ |- _ => apply z_string_url_Success in H
           | H : z_optional (z_string _) _ _ = Success _ |- _ =>
               apply optional_string_Success in H
           | H : z_boolean _ _ _ = Success _ |- _ => apply z_boolean_Success in H
           | H : z_number_int _ _ _ = Success _ |- _ => apply z_number_int_Success in H
           | H : EnvTypeSchema _ _ _ = Success _ |- _ => apply EnvTypeSchema_Success in H
           end.
    exists fields. cbn. tauto.
  - intros [fields [-> H]]. destruct item. cbn in H.
    decompose [and] H. clear H. unfold field.
    repeat match goal with
           | |- context [z_string_min1 host ?q ?v] =>
               rewrite (proj2 (z_string_min1_Success host q v _)) by (split; eassumption)
           | |- context [z_string_url host ?q ?v] =>
               rewrite (proj2 (z_string_url_Success host q v _)) by (split; eassumption)
           | |- context [z_optional (z_string host) ?q ?v] =>
               rewrite (proj2 (optional_string_Success host q v _)) by eassumption
           | |- context [z_boolean host ?q ?v] =>
               rewrite (proj2 (z_boolean_Success host q v _)) by eassumption
           | |- context [z_number_int host ?q ?v] =>
               rewrite (proj2 (z_number_int_Success q v _)) by eassumption
           | |- context [EnvTypeSchema host ?q ?v] =>
               rewrite (proj2 (EnvTypeSchema_Success host q v _)) by eassumption
           end.
    reflexivity.
Qed.
End ItemSchema.

(** What the schema of the items accepts: an object whose keys hold a
    non-empty string for [id], [projectId], [projectName] and [categoryId],
    one of the three environment names, a string the URL parser accepts, a
    string or nothing for the optional texts, a boolean for [enabled] and an
    integer for [order].  Unlike the schemas of the env records and of the
    links it gives [enabled] no default: an object without [enabled] is
    rejected, though the same key may be missing from an env record. *)
Theorem item_schema_accepts (host : Host) (p : list string) :
  (forall v item,
     NavigationItemSchema host p v = Success item <->
     exists fields, v = JObj fields /\ navigationItemFields host fields item)
  /\ (forall fields item,
        getField fields "enabled" = JUndefined ->
        NavigationItemSchema host p (JObj fields) <> Success item)
  /\ (forall fields e,
        ProjectEnvSchema host p (JObj fields) = Success e ->
        getField fields "enabled" = JUndefined ->
        ProjectEnv.enabled e = true).
Proof.
  split; [intros v item; apply NavigationItemSchema_Success|]. split.
  - intros fields item Hu H.
    apply NavigationItemSchema_Success in H. destruct H as [fields' [E H]].
    injection E as <-. unfold navigationItemFields in H.
    decompose [and] H. congruence.
  - intros fields e H Hu.
    apply ProjectEnvSchema_Success in H. destruct H as [fields' [E H]].
    injection E as <-. unfold projectEnvFields in H.
    decompose [and] H.
    match goal with
    | B : booleanOr _ _ _ |- _ => destruct B as [[_ B]|B]; [exact B|congruence]
    end.
Qed.

Lemma item_schema_accepts_witness :
  NavigationItemSchema sampleHost [] (JObj (("enabled", JBool true) :: rawItemFields)) =
    Success (NavigationItem.mk "svc-prod" "svc" "Service" None "infra" prod
               "https://prod.example.com" None None true 3)
  /\ NavigationItemSchema sampleHost [] (JObj rawItemFields) <>
       Success (NavigationItem.mk "svc-prod" "svc" "Service" None "infra" prod
                  "https://prod.example.com" None None true 3)
  /\ ProjectEnvSchema sampleHost []
       (JObj [("projectId", JStr "svc"); ("env", JStr "prod");
              ("url", JStr "https://prod.example.com")]) = Success env_svc_prod.
Proof.
  split; [|split].
  - apply (proj1 (item_schema_accepts sampleHost [])).
    eexists. split; [reflexivity|].
    unfold navigationItemFields.
    repeat split; try reflexivity; cbn; discriminate.
  - apply (proj1 (proj2 (item_schema_accepts sampleHost []))). reflexivity.
  - reflexivity.
Defined.
